(** * Logic Pro articulation-set generator: model and properties

    A shallow embedding of [generate_articulation_sets.py].

    - Python integers are [Z]; text and bytes are [string].
    - A property-list value (what [plistlib.dump] receives) is the
      inductive type [plist]; a Python dict literal is an association
      list in insertion order.
    - The articulation mapping (a Python dict from MIDI note to name) is
      a [gmap Z string]; the table of mappings is a [gmap] from path
      keys to mappings.
    - Path strings are handled as [posixpath] does, character by
      character ([PosixPath]).  A file system ([FS]) is a finite map
      from resolved paths, lists of components, to nodes; links,
      permissions and metadata are not modelled.
    - The process state threaded through the script is [World]: the
      file system and the two output streams.  A Python function with
      effects is a function in the monad [M], whose results are either
      a value or a raised exception.
    - The working directory, the home directory and [plistlib.dump] are
      parameters of the script. *)

From Stdlib Require Import ZArith Ascii.
From Stdlib Require String.
From stdpp Require Import gmap strings list sorting pretty.

Set Warnings "-register-all".

Local Open Scope Z_scope.

(** ** Property-list values *)

Inductive plist : Type :=
| PInt (n : Z)
| PBool (b : bool)
| PStr (s : string)
| PArray (items : list plist)
| PDict (fields : list (string * plist)).

(** [d[key]] on a dict value; [None] stands for a missing key. *)
Fixpoint assoc (key : string) (fields : list (string * plist)) : option plist :=
  match fields with
  | [] => None
  | (k, v) :: rest => if String.eqb k key then Some v else assoc key rest
  end.

Definition field (key : string) (d : plist) : option plist :=
  match d with
  | PDict fields => assoc key fields
  | _ => None
  end.

Definition keys_of (d : plist) : list string :=
  match d with
  | PDict fields => fields.*1
  | _ => []
  end.

(** ** [os.path] on POSIX, on strings *)

Module PosixPath.

Definition sep : ascii := "/"%char.
Definition extsep : ascii := "."%char.

(** [s.rfind(c)]: index of the last occurrence, [-1] when there is none. *)
Fixpoint rfind (c : ascii) (s : string) : Z :=
  match s with
  | EmptyString => -1
  | String a s' =>
      let r := rfind c s' in
      if 0 <=? r then r + 1
      else if Ascii.eqb a c then 0 else -1
  end.

(** The slices [s[:i]] and [s[i:]] for [0 <= i]. *)
Fixpoint take (i : nat) (s : string) : string :=
  match i, s with
  | S i', String a s' => String a (take i' s')
  | _, _ => EmptyString
  end.

Fixpoint drop (i : nat) (s : string) : string :=
  match i, s with
  | S i', String _ s' => drop i' s'
  | _, _ => s
  end.

Fixpoint all_sep (s : string) : bool :=
  match s with
  | EmptyString => true
  | String a s' => Ascii.eqb a sep && all_sep s'
  end.

(** [s.rstrip('/')]. *)
Fixpoint rstrip_sep (s : string) : string :=
  match s with
  | EmptyString => EmptyString
  | String a s' => if all_sep s then EmptyString else String a (rstrip_sep s')
  end.

Fixpoint endswith_sep (s : string) : bool :=
  match s with
  | EmptyString => false
  | String a EmptyString => Ascii.eqb a sep
  | String _ s' => endswith_sep s'
  end.

Definition startswith_sep (s : string) : bool :=
  match s with
  | String a _ => Ascii.eqb a sep
  | EmptyString => false
  end.

(** [posixpath.basename]:  [i = p.rfind('/') + 1; return p[i:]]. *)
Definition basename (p : string) : string :=
  let i := rfind sep p + 1 in
  drop (Z.to_nat i) p.

(** [posixpath.dirname]: the head [p[:i]], with trailing separators
    stripped unless it consists of separators only. *)
Definition dirname (p : string) : string :=
  let i := rfind sep p + 1 in
  let head := take (Z.to_nat i) p in
  if negb (String.eqb head "") && negb (all_sep head) then rstrip_sep head
  else head.

(** [genericpath._splitext]: the extension starts at the last dot of the
    last component, unless only dots precede it there. *)
Fixpoint only_dots (s : string) : bool :=
  match s with
  | EmptyString => true
  | String a s' => Ascii.eqb a extsep && only_dots s'
  end.

Definition splitext (p : string) : string * string :=
  let sepIndex := rfind sep p in
  let dotIndex := rfind extsep p in
  if sepIndex <? dotIndex then
    let filenameIndex := sepIndex + 1 in
    let leading :=
      take (Z.to_nat (dotIndex - filenameIndex)) (drop (Z.to_nat filenameIndex) p) in
    if only_dots leading then (p, EmptyString)
    else (take (Z.to_nat dotIndex) p, drop (Z.to_nat dotIndex) p)
  else (p, EmptyString).

(** [posixpath.join(a, b)]. *)
Definition join (a b : string) : string :=
  if startswith_sep b then b
  else if String.eqb a "" || endswith_sep a then a +:+ b
  else a +:+ String sep b.

(** The components of a path string, cut at every separator. *)
Fixpoint components (s : string) : list string :=
  match s with
  | EmptyString => [EmptyString]
  | String a s' =>
      if Ascii.eqb a sep then EmptyString :: components s'
      else match components s' with
           | [] => [String a EmptyString]
           | h :: t => String a h :: t
           end
  end.

(** A name that a directory can hold: not empty, not [.] or [..], and
    without a separator. *)
Definition valid_name (n : string) : bool :=
  negb (String.eqb n "") && negb (String.eqb n ".") && negb (String.eqb n "..")
  && (rfind sep n <? 0).

End PosixPath.

(** ** Exceptions, the file system and the process state *)

Inductive exn : Type :=
| KeyError
| FileNotFoundError
| FileExistsError
| NotADirectoryError
| IsADirectoryError
| SameFileError
| OtherError (msg : string).

(** File contents are byte strings. *)
Abbreviation bytes := string (only parsing).

(** A resolved path is the list of its components below the root
    directory; the file system maps each existing path to its node. *)
Abbreviation path := (list string) (only parsing).

Inductive node : Type :=
| Dir
| File (data : bytes).

Global Instance node_eq_dec : EqDecision node.
Proof. solve_decision. Defined.

Record World : Type := mkWorld {
  fs : gmap path node;
  stdout : list string;
  stderr : list string;
}.

Definition set_fs (f : gmap path node) (w : World) : World :=
  mkWorld f (stdout w) (stderr w).

(** The monad of the script: a computation reads and updates the
    process state and either returns a value or raises. *)
Definition M (A : Type) : Type := World → (exn + A) * World.

Definition ret {A} (a : A) : M A := λ w, (inr a, w).
Definition raise {A} (e : exn) : M A := λ w, (inl e, w).
Definition bind {A B} (c : M A) (k : A → M B) : M B :=
  λ w, match c w with
       | (inr a, w') => k a w'
       | (inl e, w') => (inl e, w')
       end.

Declare Scope py_scope.
Delimit Scope py_scope with py.
Notation "'do' x <~ c ; k" := (bind c (λ x, k))
  (at level 10, x name, c at level 100, k at level 200) : py_scope.
Notation "'run' c ; k" := (bind c (λ _, k))
  (at level 10, c at level 100, k at level 200) : py_scope.
Local Open Scope py_scope.

(** [for x in xs: body x]. *)
Fixpoint for_each {A} (xs : list A) (body : A → M unit) : M unit :=
  match xs with
  | [] => ret tt
  | x :: rest => run body x; for_each rest body
  end.

(** Lifting of a file-system operation that may fail. *)
Definition lift_fs (op : gmap path node → exn + gmap path node) : M unit :=
  λ w, match op (fs w) with
       | inr f => (inr tt, set_fs f w)
       | inl e => (inl e, w)
       end.

(** [print(line)] and [print(line, file=sys.stderr)]. *)
Definition print (line : string) : M unit :=
  λ w, (inr tt, mkWorld (fs w) (stdout w ++ [line]) (stderr w)).
Definition print_err (line : string) : M unit :=
  λ w, (inr tt, mkWorld (fs w) (stdout w) (stderr w ++ [line])).

(** The exit status of the interpreter for a script body: 0 when it
    returns, 1 when an exception reaches the top level. *)
Definition exit_code {A} (r : (exn + A) * World) : Z :=
  match r.1 with
  | inr _ => 0
  | inl _ => 1
  end.

Module FS.

(** [strip_prefix p k = Some s] exactly when [k = p ++ s]. *)
Fixpoint strip_prefix (p k : path) : option path :=
  match p, k with
  | [], _ => Some k
  | a :: p', b :: k' => if decide (a = b) then strip_prefix p' k' else None
  | _ :: _, [] => None
  end.

(** The root directory always exists. *)
Definition stat (f : gmap path node) (p : path) : option node :=
  match p with
  | [] => Some Dir
  | _ => f !! p
  end.

Definition exists_ (f : gmap path node) (p : path) : bool :=
  bool_decide (is_Some (stat f p)).

Definition isdir (f : gmap path node) (p : path) : bool :=
  bool_decide (stat f p = Some Dir).

Definition child_name (p k : path) : option string :=
  match strip_prefix p k with
  | Some [n] => Some n
  | _ => None
  end.

(** The names of the direct children of [p], in the order in which the
    file system enumerates them. *)
Definition children (f : gmap path node) (p : path) : list string :=
  omap (child_name p) (map_to_list f).*1.

(** [os.listdir(p)]. *)
Definition listdir (f : gmap path node) (p : path) : exn + list string :=
  match stat f p with
  | None => inl FileNotFoundError
  | Some (File _) => inl NotADirectoryError
  | Some Dir => inr (children f p)
  end.

(** [os.makedirs(p, exist_ok=...)]: walk down from the root directory,
    creating every missing directory; a regular file on the way is an
    error, and so is an existing leaf unless it is a directory and
    [exist_ok] holds. *)
Fixpoint makedirs_from (exist_ok : bool) (above rest : path) (f : gmap path node)
  : exn + gmap path node :=
  match rest with
  | [] => inr f
  | c :: rest' =>
      let p := above ++ [c] in
      match stat f p with
      | None => makedirs_from exist_ok p rest' (<[p := Dir]> f)
      | Some Dir =>
          match rest' with
          | [] => if exist_ok then inr f else inl FileExistsError
          | _ => makedirs_from exist_ok p rest' f
          end
      | Some (File _) =>
          match rest' with
          | [] => inl FileExistsError
          | _ => inl NotADirectoryError
          end
      end
  end.

Definition makedirs (exist_ok : bool) (p : path) (f : gmap path node)
  : exn + gmap path node :=
  match p with
  | [] => if exist_ok then inr f else inl FileExistsError
  | _ => makedirs_from exist_ok [] p f
  end.

(** [open(p, "wb")], writing [data], closing. *)
Definition write_file (p : path) (data : bytes) (f : gmap path node)
  : exn + gmap path node :=
  match p with
  | [] => inl IsADirectoryError
  | _ =>
      match stat f (removelast p) with
      | None => inl FileNotFoundError
      | Some (File _) => inl NotADirectoryError
      | Some Dir =>
          match stat f p with
          | Some Dir => inl IsADirectoryError
          | _ => inr (<[p := File data]> f)
          end
      end
  end.

(** [shutil.rmtree(p)]: [p] and everything below it disappears. *)
Definition remove_below (p : path) (f : gmap path node) : gmap path node :=
  filter (λ kv, strip_prefix p kv.1 = None) f.

Definition rmtree (p : path) (f : gmap path node) : exn + gmap path node :=
  match stat f p with
  | None => inl FileNotFoundError
  | Some (File _) => inl NotADirectoryError
  | Some Dir => inr (remove_below p f)
  end.

(** The nodes strictly below [src], re-rooted at [dst]. *)
Definition regraft (src dst : path) (kv : path * node) : option (path * node) :=
  match strip_prefix src kv.1 with
  | Some (c :: s) => Some (dst ++ c :: s, kv.2)
  | _ => None
  end.

Definition grafted (src dst : path) (f : gmap path node) : gmap path node :=
  list_to_map (omap (regraft src dst) (map_to_list f)).

(** [shutil.copytree(src, dst)]: [src] must be a directory; [dst] is
    created with [os.makedirs(dst)] and so must not exist; then every
    node below [src] is copied to the same place below [dst].  The
    recursion of the library over the source tree is flattened here,
    which is exact when neither tree lies inside the other. *)
Definition copytree (src dst : path) (f : gmap path node) : exn + gmap path node :=
  match stat f src with
  | None => inl FileNotFoundError
  | Some (File _) => inl NotADirectoryError
  | Some Dir =>
      match makedirs false dst f with
      | inl e => inl e
      | inr f' => inr (grafted src dst f ∪ f')
      end
  end.

(** The copy of one regular file that [shutil.copy2] performs once the
    destination is settled: copying a file onto itself is refused. *)
Definition copyfile (src dst : path) (f : gmap path node) : exn + gmap path node :=
  match stat f src with
  | None => inl FileNotFoundError
  | Some Dir => inl IsADirectoryError
  | Some (File data) =>
      if decide (src = dst) then inl SameFileError
      else write_file dst data f
  end.

End FS.

(** ** The script *)

(** The articulation mapping of one instrument. *)
Abbreviation mapping := (gmap Z string) (only parsing).

(** [create_articulation_dict]. *)
Definition create_articulation_dict (articulation_id : Z) (name : string) (mb1_value : Z)
  : plist :=
  let articulation :=
    PDict [ ("ArticulationID", PInt articulation_id);
            ("ID", PInt (1000 + articulation_id));
            ("Name", PStr name);
            ("Output", PArray [PDict [("MB1", PInt mb1_value); ("Status", PStr "Note On")]]) ]
  in articulation.

(** [sorted(articulation_mapping.keys())]. *)
Definition sorted_keys (articulation_mapping : mapping) : list Z :=
  merge_sort Z.le (map_to_list articulation_mapping).*1.

(** The loop of [generate_articulation_set] over the sorted notes, from a
    given state of its two variables; [articulation_mapping[midi_note]]
    raises [KeyError] on a missing key. *)
Fixpoint articulations_loop (articulation_mapping : mapping) (notes : list Z)
    (articulations : list plist) (articulation_id : Z) : exn + list plist :=
  match notes with
  | [] => inr articulations
  | midi_note :: rest =>
      match articulation_mapping !! midi_note with
      | None => inl KeyError
      | Some articulation_name =>
          let mb1_value := midi_note in
          let articulation :=
            create_articulation_dict articulation_id articulation_name mb1_value in
          articulations_loop articulation_mapping rest
            (articulations ++ [articulation]) (articulation_id + 1)
      end
  end.

(** The plist structure assembled by [generate_articulation_set]. *)
Definition plist_data (articulations : list plist) (filename : string) : plist :=
  PDict [ ("Articulations", PArray articulations);
          ("InputMidiChannel", PInt (-1));
          ("MultipleOutputsActive", PBool false);
          ("Name", PStr filename);
          ("OctaveOffset", PInt 0);
          ("Switches", PArray []);
          ("SwitchingEnabled", PBool false) ].

(** Lines 130 to 157 of the source: the document that
    [generate_articulation_set] builds before it touches the disk.  The
    [name] argument is received and not used. *)
Definition build_document (articulation_mapping : mapping) (name : string)
    (output_path : string) : exn + plist :=
  match articulations_loop articulation_mapping (sorted_keys articulation_mapping) [] 1 with
  | inl e => inl e
  | inr articulations =>
      let filename := PosixPath.basename output_path in
      inr (plist_data articulations filename)
  end.

Definition newline : string := String "010"%char EmptyString.

Record Args : Type := mkArgs { copy_overwrite : bool }.

Section Script.

(** The working directory of the process, resolved; the home directory
    that [os.path.expanduser] puts in place of the leading [~]; and
    [plistlib.dump], which sends bytes to the open file and may raise. *)
Variable cwd : path.
Variable home : string.
Variable plistlib_dump : plist → bytes * option exn.

(** Resolution of a path string: relative paths start at [cwd]; empty
    and [.] components are skipped and [..] goes one level up.  The
    step for [..] is taken on the string, as [os.path.normpath] takes
    it; the system calls walk the directories instead, so the two agree
    on the paths without a [..] component ([descending] below). *)
Definition resolve_step (acc : path) (c : string) : path :=
  if decide (c = "" ∨ c = ".") then acc
  else if decide (c = "..") then removelast acc
  else acc ++ [c].

Definition resolve (p : string) : path :=
  fold_left resolve_step (PosixPath.components p)
    (if PosixPath.startswith_sep p then [] else cwd).

Definition os_path_exists (p : string) : M bool :=
  λ w, (inr (FS.exists_ (fs w) (resolve p)), w).
Definition os_path_isdir (p : string) : M bool :=
  λ w, (inr (FS.isdir (fs w) (resolve p)), w).
Definition os_listdir (p : string) : M (list string) :=
  λ w, (FS.listdir (fs w) (resolve p), w).
Definition os_makedirs (p : string) (exist_ok : bool) : M unit :=
  lift_fs (FS.makedirs exist_ok (resolve p)).
Definition shutil_rmtree (p : string) : M unit :=
  lift_fs (FS.rmtree (resolve p)).
Definition shutil_copytree (src dst : string) : M unit :=
  lift_fs (FS.copytree (resolve src) (resolve dst)).

(** [shutil.copy2(src, dst)]: into [dst] when it is a directory. *)
Definition shutil_copy2 (src dst : string) : M unit :=
  do d <~ os_path_isdir dst;
  let dst := if d then PosixPath.join dst (PosixPath.basename src) else dst in
  lift_fs (FS.copyfile (resolve src) (resolve dst)).

(** [with open(output_path, "wb") as f: plistlib.dump(plist_data, f)]. *)
Definition dump_to_file (output_path : string) (value : plist) : M unit :=
  let '(data, err) := plistlib_dump value in
  run lift_fs (FS.write_file (resolve output_path) data);
  match err with
  | Some e => raise e
  | None => ret tt
  end.

Definition ROOT_PATH : string := "output".
Definition LOGIC_PRO_PATH : string :=
  home +:+ "/Music/Audio Music Apps/Articulation Settings".

(** The two roots of the installer, resolved. *)
Definition source_root : path := resolve ROOT_PATH.
Definition destination_root : path := resolve LOGIC_PRO_PATH.

(** Lines 145 to 172 of [generate_articulation_set]: the plist
    structure is assembled around the articulations, written to
    [output_path], and reported. *)
Definition emit_document (output_path : string) (articulations : list plist) : M string :=
  let filename := PosixPath.basename output_path in
  let plist_data := plist_data articulations filename in
  let output_dir := PosixPath.dirname output_path in
  run (if negb (String.eqb output_dir "") then os_makedirs output_dir true else ret tt);
  run dump_to_file output_path plist_data;
  run print ("Generated articulation set: " +:+ output_path);
  run print ("  Name: " +:+ filename);
  run print ("  Articulations: " +:+ pretty (length articulations));
  ret output_path.

(** [generate_articulation_set]. *)
Definition generate_articulation_set (articulation_mapping : mapping) (name : string)
    (output_path : string) : M string :=
  match articulations_loop articulation_mapping (sorted_keys articulation_mapping) [] 1 with
  | inl e => raise e
  | inr articulations => emit_document output_path articulations
  end.

(** One round of the loop of [copy_to_logic_pro]; the result is the line
    appended to [copied_items]. *)
Definition copy_item (item : string) : M string :=
  let source_path := PosixPath.join ROOT_PATH item in
  let dest_path := PosixPath.join LOGIC_PRO_PATH item in
  do is_dir <~ os_path_isdir source_path;
  if is_dir then
    do present <~ os_path_exists dest_path;
    run (if present then shutil_rmtree dest_path else ret tt);
    run shutil_copytree source_path dest_path;
    ret ("Directory: " +:+ item)
  else
    run shutil_copy2 source_path dest_path;
    ret ("File: " +:+ item).

(** The loop of [copy_to_logic_pro] over the listed items. *)
Fixpoint copy_items (items : list string) (copied_items : list string) : M (list string) :=
  match items with
  | [] => ret copied_items
  | item :: rest =>
      do line <~ copy_item item;
      copy_items rest (copied_items ++ [line])
  end.

(** [copy_to_logic_pro]. *)
Definition copy_to_logic_pro : M unit :=
  do present <~ os_path_exists ROOT_PATH;
  if negb present then
    print_err ("Error: Output directory '" +:+ ROOT_PATH +:+ "' does not exist")
  else
    run os_makedirs LOGIC_PRO_PATH true;
    do items <~ os_listdir ROOT_PATH;
    do copied_items <~ copy_items items [];
    match copied_items with
    | _ :: _ =>
        run print (newline +:+ "Copied to Logic Pro location (" +:+ LOGIC_PRO_PATH +:+ "):");
        for_each copied_items (λ item, print ("  " +:+ item))
    | [] => print ("No items found in '" +:+ ROOT_PATH +:+ "' to copy")
    end.

(** [sorted(table.items())]: the path keys are distinct, so the pairs are
    ordered by their keys, compared as strings. *)
Definition item_le (a b : string * mapping) : Prop := String.leb a.1 b.1 = true.

Global Instance item_le_dec a b : Decision (item_le a b).
Proof. unfold item_le. apply _. Defined.

Definition sorted_items (table : gmap string mapping) : list (string * mapping) :=
  merge_sort item_le (map_to_list table).

(** The generation loop of [main]. *)
Definition generate_all (table : gmap string mapping) : M unit :=
  for_each (sorted_items table) (λ entry,
    let path_key := entry.1 in
    let articulation_mapping := entry.2 in
    let output_path := PosixPath.join ROOT_PATH path_key in
    let name := (PosixPath.splitext (PosixPath.basename path_key)).1 in
    run generate_articulation_set articulation_mapping name output_path;
    ret tt).

(** [main], for a given content of the module-level table and the parsed
    command line: everything up to the end of the generation loop, then
    the optional install step. *)
Definition generation_phase (table : gmap string mapping) : M unit :=
  run print ("Generating " +:+ pretty (size table) +:+ " articulation set(s)..." +:+ newline);
  do present <~ os_path_exists ROOT_PATH;
  run (if present then shutil_rmtree ROOT_PATH else ret tt);
  generate_all table.

Definition main_with (table : gmap string mapping) (args : Args) : M unit :=
  run generation_phase table;
  if copy_overwrite args then copy_to_logic_pro else ret tt.

End Script.

(** The hardcoded table of the source. *)
Definition PATH_TO_ARTICULATION_MAPPING : gmap string mapping :=
  list_to_map
    [ ("Musio - CineStrings Solo/Violin I.plist",
       list_to_map
         [ (24, "Legato - Performance"); (25, "Legato - Bow Change");
           (26, "Legato - Espressivo"); (27, "Sustain");
           (28, "Sustain - Espressivo"); (29, "Sustain - Infinite Bow");
           (30, "Marcato"); (31, "Staccato"); (32, "Spiccato");
           (33, "Short Spiccato"); (34, "Pizzicato"); (35, "Tremolo") ]);
      ("Musio - CineStrings Solo/Violin II.plist",
       list_to_map
         [ (24, "Legato - Performance"); (25, "Legato - Bow change");
           (26, "Legato - Espressivo"); (27, "Sustain");
           (28, "Sustain - Espressivo"); (29, "Sustain - Infinite Bow");
           (30, "Marcato"); (31, "Staccato"); (32, "Spiccato");
           (33, "Short Spiccato"); (34, "Pizzicato");
           (35, "Bartok Pizzicato"); (36, "Tremolo") ]);
      ("Musio - CineStrings Solo/Viola.plist",
       list_to_map
         [ (24, "Legato - Performance"); (25, "Legato - Bow Change");
           (26, "Legato - Espressivo"); (27, "Sustain");
           (28, "Sustain - Espressivo"); (29, "Sustain - Infinite Bow");
           (30, "Marcato"); (31, "Staccato"); (32, "Spiccato");
           (33, "Short Spiccato"); (34, "Pizzicato");
           (35, "Bartok Pizzicato"); (36, "Tremolo") ]);
      ("Musio - CineStrings Solo/Cello.plist",
       list_to_map
         [ (24, "Legato - Performance"); (25, "Legato - Bow Change");
           (26, "Legato - Espressivo"); (27, "Sustain");
           (28, "Sustain - Espressivo"); (29, "Sustain - Infinite Bow");
           (30, "Marcato"); (31, "Staccato"); (32, "Spiccato");
           (33, "Pizzicato") ]);
      ("Musio - CineStrings Solo/Bass.plist",
       list_to_map
         [ (72, "Legato - Performance"); (73, "Legato - Bow Change");
           (74, "Legato - Espressivo"); (75, "Sustain");
           (76, "Sustain - Espressivo"); (77, "Sustain - Infinite Bow");
           (78, "Marcato"); (79, "Staccato"); (80, "Spiccato");
           (81, "Pizzicato"); (82, "Bartok Pizzicato") ]);
      ("Spitfire - Chamber Strings Essentials.plist",
       list_to_map
         [ (0, "Legato"); (1, "Long"); (2, "Spiccato"); (3, "Staccato");
           (4, "Pizzicato"); (5, "Long Harmonics"); (6, "Tremolo");
           (7, "Trill Minor 2nd"); (8, "Trill Major 2nd") ]) ].

(** [main]. *)
Definition main (cwd : path) (home : string) (plistlib_dump : plist → bytes * option exn)
    (args : Args) : M unit :=
  main_with cwd home plistlib_dump PATH_TO_ARTICULATION_MAPPING args.


(** ** Frames *)

(** [agree_on S f f']: the file systems [f] and [f'] hold the same node,
    or none, at every path in [S]. *)
Definition agree_on (S : path → Prop) (f f' : gmap path node) : Prop :=
  ∀ p, S p → f' !! p = f !! p.

(** [preserves Q c]: however [c] ends, the file systems before and
    after are related by [Q]. *)
Definition preserves {A : Type} (Q : relation (gmap path node)) (c : M A) : Prop :=
  ∀ w r w', c w = (r, w') → Q (fs w) (fs w').

(** The paths that a round of the installer for [item] leaves alone:
    those that are neither on the way to the destination root nor at or
    below the item's destination. *)
Definition outside (dest : path) (item : string) (p : path) : Prop :=
  ¬ p `prefix_of` dest ∧ ¬ (dest ++ [item]) `prefix_of` p.

(** [keeps_dirs dest f f']: on the way to [dest], [f'] differs from [f]
    at most by directories that were missing. *)
Definition keeps_dirs (dest : path) (f f' : gmap path node) : Prop :=
  ∀ p, p `prefix_of` dest →
       f' !! p = f !! p ∨ (f !! p = None ∧ f' !! p = Some Dir).


(** [silent c]: however [c] ends, it has printed nothing. *)
Definition silent {A : Type} (c : M A) : Prop :=
  ∀ w r w', c w = (r, w') → stdout w' = stdout w ∧ stderr w' = stderr w.

(** The line that [copy_to_logic_pro] records for an entry of the source
    root [src]. *)
Definition copied_line (src : path) (f : gmap path node) (item : string) : string :=
  if FS.isdir f (src ++ [item]) then "Directory: " +:+ item else "File: " +:+ item.


(** The paths that belong to an entry [item] of the installer: those at
    or below it under the source root or under the destination root. *)
Definition item_region (src dest : path) (item : string) (p : path) : Prop :=
  (src ++ [item]) `prefix_of` p ∨ (dest ++ [item]) `prefix_of` p.

(** ** Sample process states *)

(** A [plistlib.dump] that writes nothing and does not raise. *)
Definition no_dump (value : plist) : bytes * option exn := ("", None).

(** A [plistlib.dump] that writes only the top-level name of the
    document, to make that name visible in the file written. *)
Definition name_dump (value : plist) : bytes * option exn :=
  (match field "Name" value with
   | Some (PStr s) => s
   | _ => ""
   end, None).

(** A [plistlib.dump] that raises after a few bytes. *)
Definition failing_dump (value : plist) : bytes * option exn :=
  ("<?xml", Some (OtherError "OverflowError")).

(** Below the working directory [/work] the output root holds a folder
    with one file and a file; the destination root under [/home/u] holds
    a folder of the same name with a file that the source does not have. *)
Definition stale_world : World :=
  mkWorld
    (list_to_map
       [ (["work"], Dir);
         (["work"; "output"], Dir);
         (["work"; "output"; "Musio"], Dir);
         (["work"; "output"; "Musio"; "Violin.plist"], File "new");
         (["work"; "output"; "Top.plist"], File "top");
         (["home"], Dir);
         (["home"; "u"], Dir);
         (["home"; "u"; "Music"], Dir);
         (["home"; "u"; "Music"; "Audio Music Apps"], Dir);
         (["home"; "u"; "Music"; "Audio Music Apps"; "Articulation Settings"], Dir);
         (["home"; "u"; "Music"; "Audio Music Apps"; "Articulation Settings"; "Musio"], Dir);
         (["home"; "u"; "Music"; "Audio Music Apps"; "Articulation Settings"; "Musio";
           "Old.plist"], File "old") ])
    [] [].

(** The state in which the installer leaves [stale_world]. *)
Definition installed_world : World :=
  (copy_to_logic_pro ["work"] "/home/u" stale_world).2.


(** The output root holds one folder; the destination root holds a
    regular file of that name, and a file that the source does not have. *)
Definition blocked_world : World :=
  mkWorld
    (list_to_map
       [ (["work"], Dir);
         (["work"; "output"], Dir);
         (["work"; "output"; "Musio"], Dir);
         (["work"; "output"; "Musio"; "Violin.plist"], File "new");
         (["home"], Dir);
         (["home"; "u"], Dir);
         (["home"; "u"; "Music"], Dir);
         (["home"; "u"; "Music"; "Audio Music Apps"], Dir);
         (["home"; "u"; "Music"; "Audio Music Apps"; "Articulation Settings"], Dir);
         (["home"; "u"; "Music"; "Audio Music Apps"; "Articulation Settings"; "Musio"],
          File "not a folder");
         (["home"; "u"; "Music"; "Audio Music Apps"; "Articulation Settings"; "Mine.plist"],
          File "mine") ])
    [] [].

(** The output root holds a folder with one file; the home directory has
    no [Music] folder yet. *)
Definition fresh_world : World :=
  mkWorld
    (list_to_map
       [ (["work"], Dir);
         (["work"; "output"], Dir);
         (["work"; "output"; "Musio"], Dir);
         (["work"; "output"; "Musio"; "Violin.plist"], File "new");
         (["home"], Dir);
         (["home"; "u"], Dir) ])
    [] [].

(** The states in which the installer leaves these. *)
Definition fresh_installed : World :=
  (copy_to_logic_pro ["work"] "/home/u" fresh_world).2.


(** An empty output root, and a home directory in which [Music] is a
    regular file. *)
Definition music_file_world : World :=
  mkWorld
    (list_to_map
       [ (["work"], Dir); (["work"; "output"], Dir); (["home"], Dir); (["home"; "u"], Dir);
         (["home"; "u"; "Music"], File "not a folder") ])
    [] [].

(** ** Reading a generated document *)

(** The mapping of the scenario of the specification, and one whose
    notes lie outside the MIDI range. *)
Definition scenario_mapping : mapping := list_to_map [(0, "Legato"); (2, "Spiccato")].
Definition wide_mapping : mapping := list_to_map [(300, "High"); (-5, "Low")].

Definition int_field (key : string) (d : plist) : option Z :=
  match field key d with
  | Some (PInt n) => Some n
  | _ => None
  end.

(** The records under ["Articulations"]. *)
Definition entries (doc : plist) : list plist :=
  match field "Articulations" doc with
  | Some (PArray l) => l
  | _ => []
  end.

(** The note of an entry: the ["MB1"] of the single record of its
    ["Output"] array. *)
Definition output_note (e : plist) : option Z :=
  match field "Output" e with
  | Some (PArray [r]) => int_field "MB1" r
  | _ => None
  end.

(** The entry that the loop appends at position [i] (from 0) for note [k]. *)
Definition entry_at (articulation_mapping : mapping) (i : nat) (k : Z) : plist :=
  create_articulation_dict (1 + Z.of_nat i) (articulation_mapping !!! k) k.

(** Reading a document back: the note and the name of a record, and the
    mapping that the records of a document spell out. *)
Definition entry_pair (e : plist) : option (Z * string) :=
  match output_note e, field "Name" e with
  | Some k, Some (PStr articulation_name) => Some (k, articulation_name)
  | _, _ => None
  end.

Definition mapping_of (doc : plist) : mapping :=
  list_to_map (omap entry_pair (entries doc)).

(** Where [main] writes the file of a table key, and the directory of
    that file. *)
Definition target_of (cwd : path) (path_key : string) : path :=
  resolve cwd (PosixPath.join ROOT_PATH path_key).
Definition parent_of (cwd : path) (path_key : string) : path :=
  resolve cwd (PosixPath.dirname (PosixPath.join ROOT_PATH path_key)).

(** A path string that only goes down: none of its components is [..].
    For such a path the place that [resolve] computes is the place that
    the system calls reach when they walk the directories. *)
Definition descending (p : string) : Prop :=
  Forall (λ c, c ≠ "..") (PosixPath.components p).

(** A table key that is a relative path of proper names, such as
    [Musio - CineStrings Solo/Violin I.plist]. *)
Definition relative_key (path_key : string) : Prop :=
  Forall (λ c, PosixPath.valid_name c = true) (PosixPath.components path_key).

(** The name that [main] passes for a table key. *)
Definition name_of (path_key : string) : string :=
  (PosixPath.splitext (PosixPath.basename path_key)).1.

(** [generated root cwd dump done f]: in [f], no regular file stands on
    the way to [root]; everything at or below [root] is the file of an
    entry in [done] or a directory on the way to one; and the file of
    each entry in [done] holds the bytes dumped for its document. *)
Definition generated (root cwd : path) (plistlib_dump : plist → bytes * option exn)
    (done_entries : list (string * mapping)) (f : gmap path node) : Prop :=
  (∀ q d, q `prefix_of` root → f !! q ≠ Some (File d)) ∧
  (∀ q n, root `prefix_of` q → f !! q = Some n →
     (n = Dir ∧ ∃ e, e ∈ done_entries ∧ q `prefix_of` parent_of cwd e.1) ∨
     (n ≠ Dir ∧ ∃ e, e ∈ done_entries ∧ q = target_of cwd e.1)) ∧
  (∀ e, e ∈ done_entries →
     ∃ doc, build_document e.2 (name_of e.1) (PosixPath.join ROOT_PATH e.1) = inr doc ∧
            f !! target_of cwd e.1 = Some (File (plistlib_dump doc).1)).

(** The three lines that [generate_articulation_set] prints. *)
Definition progress_lines (output_path : string) (count : nat) : list string :=
  [ "Generated articulation set: " +:+ output_path;
    "  Name: " +:+ PosixPath.basename output_path;
    "  Articulations: " +:+ pretty count ].

(** The state after generating the scenario's file from nothing. *)
Definition generated_world : World :=
  (generate_articulation_set ["work"] name_dump scenario_mapping "Test" "output/Test.plist"
     (mkWorld ∅ [] [])).2.

(** A table with the scenario's mapping alone, an output root with a
    file left by an earlier run, and the state after the generation
    phase has run there. *)
Definition scenario_table : gmap string mapping :=
  {[ "Test.plist" := scenario_mapping ]}.

Definition leftover_world : World :=
  mkWorld
    (list_to_map
       [ (["work"], Dir);
         (["work"; "output"], Dir);
         (["work"; "output"; "Old.plist"], File "old") ])
    [] [].

Definition regenerated_world : World :=
  (generation_phase ["work"] name_dump scenario_table leftover_world).2.

(** ** The whole script *)

(** [confined root f f']: off the paths at or below [root], [f'] differs
    from [f] at most by directories on the way to [root] that were
    missing. *)
Definition confined (root : path) (f f' : gmap path node) : Prop :=
  ∀ q, ¬ root `prefix_of` q →
       f' !! q = f !! q ∨ (f !! q = None ∧ f' !! q = Some Dir ∧ q `prefix_of` root).

(** [tree f]: the parent of every node of [f] is a directory. *)
Definition tree (f : gmap path node) : Prop :=
  ∀ q c, is_Some (f !! (q ++ [c])) → FS.stat f q = Some Dir.

Definition keeps_tree (f f' : gmap path node) : Prop := tree f → tree f'.

(** The first line that [main] prints, and all that its generation
    phase prints when it returns. *)
Definition heading (table : gmap string mapping) : string :=
  "Generating " +:+ pretty (size table) +:+ " articulation set(s)..." +:+ newline.

Definition progress_report (table : gmap string mapping) : list string :=
  heading table
  :: (sorted_items table ≫= λ entry,
        progress_lines (PosixPath.join ROOT_PATH entry.1) (size entry.2)).

(** The keys of a list of table entries are in ascending order, as
    strings. *)
Definition ascending (l : list (string * mapping)) : Prop :=
  StronglySorted item_le l.




(** The state after the script, without the install step, has run for
    the scenario's table where an earlier run and an earlier install
    have left their files. *)
Definition generated_only : World :=
  (main_with ["work"] "/home/u" name_dump scenario_table (mkArgs false) stale_world).2.

(** A table with a key directly in the output root and a nested key; a
    state in which an earlier run and an earlier install have left
    their files; and the state after the whole script, with the install
    step, has run there. *)
Definition mixed_table : gmap string mapping :=
  {[ "Test.plist" := scenario_mapping; "Strings/Low.plist" := wide_mapping ]}.

Definition reinstall_world : World :=
  mkWorld
    (list_to_map
       [ (["work"], Dir);
         (["work"; "output"], Dir);
         (["work"; "output"; "Old.plist"], File "old");
         (["home"], Dir);
         (["home"; "u"], Dir);
         (["home"; "u"; "Music"], Dir);
         (["home"; "u"; "Music"; "Audio Music Apps"], Dir);
         (["home"; "u"; "Music"; "Audio Music Apps"; "Articulation Settings"], Dir);
         (["home"; "u"; "Music"; "Audio Music Apps"; "Articulation Settings"; "Strings"],
          Dir);
         (["home"; "u"; "Music"; "Audio Music Apps"; "Articulation Settings"; "Strings";
           "Gone.plist"], File "gone");
         (["home"; "u"; "Music"; "Audio Music Apps"; "Articulation Settings"; "Test.plist"],
          File "earlier");
         (["home"; "u"; "Music"; "Audio Music Apps"; "Articulation Settings"; "Mine.plist"],
          File "mine") ])
    [] [].

(** A state in which the name of the output root belongs to a regular
    file. *)
Definition output_file_world : World :=
  mkWorld (list_to_map [ (["work"], Dir); (["work"; "output"], File "notes") ]) [] [].

Definition reinstalled_world : World :=
  (main_with ["work"] "/home/u" name_dump mixed_table (mkArgs true) reinstall_world).2.

(** * Running the monad *)

(** Running a [bind] in a state. *)
Lemma bind_run {A B : Type} (c : M A) (k : A → M B) w :
  bind c k w = match c w with
               | (inr a, w') => k a w'
               | (inl e, w') => (inl e, w')
               end.
Proof. reflexivity. Qed.

(** * Properties of the document builder *)

Section Builder.

Implicit Types (m : mapping) (notes : list Z).

Lemma sorted_keys_perm m : sorted_keys m ≡ₚ (map_to_list m).*1.
Proof. apply merge_sort_Permutation. Qed.

Lemma sorted_keys_length m : length (sorted_keys m) = size m.
Proof.
  rewrite sorted_keys_perm, length_fmap.
  apply length_map_to_list.
Qed.

Lemma sorted_keys_elem m k : k ∈ sorted_keys m ↔ is_Some (m !! k).
Proof.
  rewrite sorted_keys_perm, list_elem_of_fmap. split.
  - intros [[k' v] [-> Hkv]]. apply elem_of_map_to_list in Hkv. eauto.
  - intros [v Hv]. exists (k, v). split; [done|]. by apply elem_of_map_to_list.
Qed.

Lemma sorted_keys_NoDup m : NoDup (sorted_keys m).
Proof. rewrite sorted_keys_perm. apply NoDup_fst_map_to_list. Qed.

Lemma sorted_keys_sorted m : Sorted Z.le (sorted_keys m).
Proof. apply (Sorted_merge_sort Z.le). Qed.

(** The keys are distinct, so the order is strict. *)
Lemma sorted_keys_increasing m : StronglySorted Z.lt (sorted_keys m).
Proof.
  pose proof (sorted_keys_NoDup m) as Hnd.
  pose proof (StronglySorted_merge_sort Z.le (map_to_list m).*1) as Hs.
  fold (sorted_keys m) in Hs.
  induction Hs as [|k l Hs IH Hall]; [constructor|].
  apply NoDup_cons in Hnd as [Hk Hnd].
  constructor; [by apply IH|].
  rewrite Forall_forall in Hall |- *. intros y Hy.
  specialize (Hall y Hy).
  assert (k ≠ y) by (intros ->; done). lia.
Qed.

(** The loop never raises on notes that are keys of the mapping, and
    appends one record per note, numbered from its counter. *)
Lemma articulations_loop_spec m notes acc id :
  Forall (λ k, is_Some (m !! k)) notes →
  articulations_loop m notes acc id =
    inr (acc ++ imap (λ i k, create_articulation_dict (id + Z.of_nat i) (m !!! k) k) notes).
Proof.
  intros Hall. revert acc id.
  induction Hall as [|k notes [name Hk] _ IH]; intros acc id;
    cbn [articulations_loop imap].
  - by rewrite app_nil_r.
  - rewrite Hk, IH, <- app_assoc. do 2 f_equal. cbn [app]. f_equal.
    + by rewrite Z.add_0_r, (lookup_total_correct _ _ _ Hk).
    + apply imap_ext. intros i x _. cbn. f_equal. lia.
Qed.

Lemma build_document_eq m name output_path :
  build_document m name output_path =
    inr (plist_data (imap (entry_at m) (sorted_keys m)) (PosixPath.basename output_path)).
Proof.
  unfold build_document. rewrite articulations_loop_spec.
  - done.
  - apply Forall_forall. intros k Hk. by apply sorted_keys_elem.
Qed.

Lemma entries_plist_data l filename : entries (plist_data l filename) = l.
Proof. reflexivity. Qed.

End Builder.

Section BuilderFacts.

Implicit Types (m : mapping) (doc e : plist).

Lemma imap_index {A B} (g : nat → B) (l : list A) :
  imap (λ i _, g i) l = g <$> seq 0 (length l).
Proof.
  apply list_eq. intros i.
  rewrite list_lookup_imap, list_lookup_fmap.
  destruct (l !! i) as [x|] eqn:Hi; simpl.
  - apply lookup_lt_Some in Hi. by rewrite lookup_seq_lt.
  - apply lookup_ge_None in Hi. by rewrite lookup_seq_ge.
Qed.

Lemma entries_build m name output_path doc :
  build_document m name output_path = inr doc →
  entries doc = imap (entry_at m) (sorted_keys m).
Proof. rewrite build_document_eq. by intros [= <-]. Qed.

(** What the record at position [i] of a built document is. *)
Lemma entries_build_lookup m name output_path doc i e :
  build_document m name output_path = inr doc →
  entries doc !! i = Some e →
  ∃ k articulation_name,
    sorted_keys m !! i = Some k ∧ m !! k = Some articulation_name ∧
    e = create_articulation_dict (1 + Z.of_nat i) articulation_name k.
Proof.
  intros Hdoc. rewrite (entries_build _ _ _ _ Hdoc), list_lookup_imap.
  destruct (sorted_keys m !! i) as [k|] eqn:Hk; [|done].
  intros [= <-].
  assert (is_Some (m !! k)) as [v Hv].
  { apply sorted_keys_elem. by eapply list_elem_of_lookup_2. }
  exists k, v. split_and!; [done..|].
  unfold entry_at. by rewrite (lookup_total_correct _ _ _ Hv).
Qed.

Lemma entries_build_key m name output_path doc k articulation_name :
  build_document m name output_path = inr doc →
  m !! k = Some articulation_name →
  ∃ i, sorted_keys m !! i = Some k ∧
       entries doc !! i =
         Some (create_articulation_dict (1 + Z.of_nat i) articulation_name k).
Proof.
  intros Hdoc Hk.
  assert (k ∈ sorted_keys m) as [i Hi]%list_elem_of_lookup_1.
  { apply sorted_keys_elem. eauto. }
  exists i. split; [done|].
  rewrite (entries_build _ _ _ _ Hdoc), list_lookup_imap, Hi. simpl.
  unfold entry_at. by rewrite (lookup_total_correct _ _ _ Hk).
Qed.

End BuilderFacts.

(** ** From the document to the file *)

Section Generator.

Variable cwd : path.
Variable plistlib_dump : plist → bytes * option exn.

(** [generate_articulation_set] emits the document of [build_document]. *)
Lemma generate_articulation_set_document (m : mapping) (name output_path : string) :
  ∃ articulations,
    build_document m name output_path
    = inr (plist_data articulations (PosixPath.basename output_path)) ∧
    generate_articulation_set cwd plistlib_dump m name output_path
    = emit_document cwd plistlib_dump output_path articulations.
Proof.
  exists (imap (entry_at m) (sorted_keys m)). split; [apply build_document_eq|].
  unfold generate_articulation_set. rewrite articulations_loop_spec; [done|].
  apply Forall_forall. intros k Hk. by apply sorted_keys_elem.
Qed.

(** When [emit_document] returns, the file at the output path holds the
    bytes that [plistlib.dump] produced for the document, three lines
    were printed, and the output path is the result. *)
Lemma emit_document_returns (output_path : string) (articulations : list plist)
    (w w' : World) (result : string) :
  emit_document cwd plistlib_dump output_path articulations w = (inr result, w') →
  result = output_path ∧
  fs w' !! resolve cwd output_path
  = Some (File (plistlib_dump
                  (plist_data articulations (PosixPath.basename output_path))).1) ∧
  stdout w' = stdout w ++
    [ "Generated articulation set: " +:+ output_path;
      "  Name: " +:+ PosixPath.basename output_path;
      "  Articulations: " +:+ pretty (length articulations) ] ∧
  stderr w' = stderr w.
Proof.
  unfold emit_document. cbv zeta. rewrite bind_run.
  destruct ((if negb (String.eqb (PosixPath.dirname output_path) "")
             then os_makedirs cwd (PosixPath.dirname output_path) true
             else ret ()) w) as [[e|[]] w1] eqn:Hdirs; [done|].
  assert (stdout w1 = stdout w ∧ stderr w1 = stderr w) as [Hout Herr].
  { destruct (negb _); [|by injection Hdirs as <-].
    unfold os_makedirs, lift_fs in Hdirs.
    destruct (FS.makedirs _ _ _); by simplify_eq. }
  rewrite bind_run. unfold dump_to_file.
  destruct (plistlib_dump _) as [data err] eqn:Hdump.
  rewrite bind_run. unfold lift_fs.
  destruct (FS.write_file (resolve cwd output_path) data (fs w1)) as [e|f'] eqn:Hwrite;
    [done|].
  destruct err as [e|]; [done|]. unfold ret at 1.
  unfold print, ret, bind. cbn [fs stdout stderr set_fs].
  intros [= <- <-]. cbn [fs stdout stderr]. split_and!; [done| |by rewrite <- !app_assoc, Hout|done].
  unfold FS.write_file in Hwrite.
  destruct (resolve cwd output_path) as [|c l]; [done|].
  destruct (FS.stat (fs w1) (removelast (c :: l))) as [[|?]|]; try done.
  destruct (FS.stat (fs w1) (c :: l)) as [[|?]|]; try done;
    injection Hwrite as <-; by rewrite lookup_insert_eq.
Qed.

End Generator.

(** * The claims about the generated document *)

(** C1, as stated, fails: in the scenario mapping the first record has
    ["ArticulationID"] 1 and ["ID"] 1001, so the two keys do not carry
    the same integer. *)
Lemma articulation_id_differs_from_id :
  ¬ (∀ (m : mapping) (name output_path : string) (doc e : plist),
       build_document m name output_path = inr doc →
       e ∈ entries doc →
       field "ArticulationID" e = field "ID" e).
Proof.
  intros H.
  specialize (H scenario_mapping "Test" "output/Test.plist"
                (plist_data (imap (entry_at scenario_mapping) (sorted_keys scenario_mapping))
                            "Test.plist")
                (create_articulation_dict 1 "Legato" 0)).
  assert (field "ArticulationID" (create_articulation_dict 1 "Legato" 0)
          = field "ID" (create_articulation_dict 1 "Legato" 0)) as Heq.
  { apply H; [by rewrite build_document_eq|].
    rewrite entries_plist_data. vm_compute. left. }
  vm_compute in Heq. discriminate.
Qed.

(** C1, amended: in every record of every built document
    ["ArticulationID"] holds the sequence number [n] of the record, with
    [1 <= n <= |M|], and ["ID"] holds [1000 + n]; the two values are
    never equal. *)
Theorem articulation_id_and_id (m : mapping) (name output_path : string) (doc e : plist) :
  build_document m name output_path = inr doc →
  e ∈ entries doc →
  ∃ n : Z,
    1 ≤ n ≤ Z.of_nat (size m) ∧
    int_field "ArticulationID" e = Some n ∧
    int_field "ID" e = Some (1000 + n) ∧
    field "ArticulationID" e ≠ field "ID" e.
Proof.
  intros Hdoc [i Hi]%list_elem_of_lookup_1.
  assert (i < size m)%nat as Hlt.
  { apply lookup_lt_Some in Hi.
    by rewrite (entries_build _ _ _ _ Hdoc), length_imap, sorted_keys_length in Hi. }
  destruct (entries_build_lookup _ _ _ _ _ _ Hdoc Hi) as (k & v & _ & _ & ->).
  exists (1 + Z.of_nat i). split_and!; [lia | lia | done | done |].
  cbn. intros [=]. lia.
Qed.

Lemma articulation_id_and_id_witness :
  ∃ n : Z,
    1 ≤ n ≤ Z.of_nat (size scenario_mapping) ∧
    int_field "ArticulationID" (create_articulation_dict 2 "Spiccato" 2) = Some n ∧
    int_field "ID" (create_articulation_dict 2 "Spiccato" 2) = Some (1000 + n) ∧
    field "ArticulationID" (create_articulation_dict 2 "Spiccato" 2)
      ≠ field "ID" (create_articulation_dict 2 "Spiccato" 2).
Proof.
  apply (articulation_id_and_id scenario_mapping "Test" "output/Test.plist"
           (plist_data [create_articulation_dict 1 "Legato" 0;
                        create_articulation_dict 2 "Spiccato" 2] "Test.plist")).
  - vm_compute. reflexivity.
  - vm_compute. right. left.
Defined.

(** C2: the top-level ["Name"] of every built document is the base name
    of the output path, extension included; the name that [main] derives
    without the extension is not what ends up in the document.  For the
    path [output/Test.plist] the field holds ["Test.plist"] where the
    claim expects ["Test"]. *)
Theorem document_name_is_file_name :
  (∀ (m : mapping) (name output_path : string),
     ∃ doc, build_document m name output_path = inr doc ∧
            field "Name" doc = Some (PStr (PosixPath.basename output_path))) ∧
  (let path_key := "Test.plist" in
   let output_path := PosixPath.join ROOT_PATH path_key in
   let name := (PosixPath.splitext (PosixPath.basename path_key)).1 in
   name = "Test" ∧
   ∃ doc, build_document scenario_mapping name output_path = inr doc ∧
          field "Name" doc = Some (PStr "Test.plist") ∧
          field "Name" doc ≠ Some (PStr name)).
Proof.
  split.
  - intros m name output_path. rewrite build_document_eq. eauto.
  - cbv zeta. split; [reflexivity|].
    rewrite build_document_eq. eexists. split; [done|].
    split; [reflexivity|]. vm_compute. discriminate.
Qed.

(** The script run from an empty file system on the table of the
    source: the document written for the last key carries that key,
    extension included, as its name. *)
Example main_names_keep_extension :
  fs (main ["work"] "/home/u" name_dump (mkArgs false) (mkWorld ∅ [] [])).2
    !! ["work"; "output"; "Spitfire - Chamber Strings Essentials.plist"]
  = Some (File "Spitfire - Chamber Strings Essentials.plist").
Proof. vm_compute. reflexivity. Qed.

(** C3: for every mapping [M] the document is built without an error;
    its entries are as many as [M] has keys; their notes, read in order,
    are the keys of [M] in ascending order (each key once); and their
    sequence numbers, read in order, are [1, 2, ..., |M|]. *)
Theorem entries_sorted_and_dense (m : mapping) (name output_path : string) :
  ∃ (doc : plist) (notes : list Z),
    build_document m name output_path = inr doc ∧
    length (entries doc) = size m ∧
    output_note <$> entries doc = Some <$> notes ∧
    Sorted Z.le notes ∧ StronglySorted Z.lt notes ∧
    (∀ k, k ∈ notes ↔ is_Some (m !! k)) ∧
    int_field "ArticulationID" <$> entries doc
      = Some <$> (Z.of_nat <$> seq 1 (size m)).
Proof.
  exists (plist_data (imap (entry_at m) (sorted_keys m)) (PosixPath.basename output_path)),
         (sorted_keys m).
  rewrite build_document_eq, entries_plist_data.
  split_and!.
  - done.
  - by rewrite length_imap, sorted_keys_length.
  - rewrite fmap_imap. by rewrite <- (imap_const Some).
  - apply sorted_keys_sorted.
  - apply sorted_keys_increasing.
  - apply sorted_keys_elem.
  - rewrite fmap_imap.
    rewrite (imap_ext _ (λ i _, Some (1 + Z.of_nat i))) by done.
    rewrite imap_index, sorted_keys_length, <- list_fmap_compose.
    rewrite <- (fmap_add_seq 1 0), <- list_fmap_compose.
    apply list_fmap_ext. intros _ i _. cbn. f_equal. lia.
Qed.

(** C4: in every built document the record at position [i] (from 0) has
    sequence number [i + 1], its ["ID"] is that number plus 1000, and its
    note is the [i]-th key of the mapping in ascending order, unchanged,
    under which the mapping holds the record's name. *)
Theorem display_id_and_note (m : mapping) (name output_path : string)
    (doc e : plist) (i : nat) :
  build_document m name output_path = inr doc →
  entries doc !! i = Some e →
  ∃ (sequenceId displayId outputNote : Z) (articulation_name : string),
    int_field "ArticulationID" e = Some sequenceId ∧
    int_field "ID" e = Some displayId ∧
    output_note e = Some outputNote ∧
    field "Name" e = Some (PStr articulation_name) ∧
    sequenceId = Z.of_nat i + 1 ∧
    displayId = sequenceId + 1000 ∧
    sorted_keys m !! i = Some outputNote ∧
    m !! outputNote = Some articulation_name.
Proof.
  intros Hdoc Hi.
  destruct (entries_build_lookup _ _ _ _ _ _ Hdoc Hi) as (k & v & Hk & Hv & ->).
  exists (1 + Z.of_nat i), (1000 + (1 + Z.of_nat i)), k, v.
  split_and!; try done; lia.
Qed.

Lemma display_id_and_note_witness :
  ∃ (sequenceId displayId outputNote : Z) (articulation_name : string),
    int_field "ArticulationID" (create_articulation_dict 2 "Spiccato" 2) = Some sequenceId ∧
    int_field "ID" (create_articulation_dict 2 "Spiccato" 2) = Some displayId ∧
    output_note (create_articulation_dict 2 "Spiccato" 2) = Some outputNote ∧
    field "Name" (create_articulation_dict 2 "Spiccato" 2) = Some (PStr articulation_name) ∧
    sequenceId = Z.of_nat 1 + 1 ∧
    displayId = sequenceId + 1000 ∧
    sorted_keys scenario_mapping !! 1%nat = Some outputNote ∧
    scenario_mapping !! outputNote = Some articulation_name.
Proof.
  apply (display_id_and_note scenario_mapping "Test" "output/Test.plist"
           (plist_data [create_articulation_dict 1 "Legato" 0;
                        create_articulation_dict 2 "Spiccato" 2] "Test.plist")).
  - vm_compute. reflexivity.
  - reflexivity.
Defined.

(** C5: the ["Output"] of the record at position [i] is an array of
    exactly one record, [{"MB1": note, "Status": "Note On"}], whose note
    is the [i]-th key of the mapping; and every key of the mapping,
    whatever integer it is, appears so in some record. *)
Theorem output_is_single_note_on (m : mapping) (name output_path : string) (doc : plist) :
  build_document m name output_path = inr doc →
  (∀ (i : nat) (e : plist),
     entries doc !! i = Some e →
     ∃ outputNote : Z,
       sorted_keys m !! i = Some outputNote ∧
       field "Output" e =
         Some (PArray [PDict [("MB1", PInt outputNote); ("Status", PStr "Note On")]])) ∧
  (∀ (midi_note : Z) (articulation_name : string),
     m !! midi_note = Some articulation_name →
     ∃ e, e ∈ entries doc ∧
          field "Name" e = Some (PStr articulation_name) ∧
          field "Output" e =
            Some (PArray [PDict [("MB1", PInt midi_note); ("Status", PStr "Note On")]])).
Proof.
  intros Hdoc. split.
  - intros i e Hi.
    destruct (entries_build_lookup _ _ _ _ _ _ Hdoc Hi) as (k & v & Hk & _ & ->).
    by exists k.
  - intros k v Hk.
    destruct (entries_build_key _ _ _ _ _ _ Hdoc Hk) as (i & _ & Hi).
    eexists. split; [by eapply list_elem_of_lookup_2|]. done.
Qed.

Lemma output_is_single_note_on_witness :
  (∀ (i : nat) (e : plist),
     [create_articulation_dict 1 "Low" (-5); create_articulation_dict 2 "High" 300] !! i
       = Some e →
     ∃ outputNote : Z,
       sorted_keys wide_mapping !! i = Some outputNote ∧
       field "Output" e =
         Some (PArray [PDict [("MB1", PInt outputNote); ("Status", PStr "Note On")]])) ∧
  (∀ (midi_note : Z) (articulation_name : string),
     wide_mapping !! midi_note = Some articulation_name →
     ∃ e, e ∈ [create_articulation_dict 1 "Low" (-5); create_articulation_dict 2 "High" 300] ∧
          field "Name" e = Some (PStr articulation_name) ∧
          field "Output" e =
            Some (PArray [PDict [("MB1", PInt midi_note); ("Status", PStr "Note On")]])).
Proof.
  apply (output_is_single_note_on wide_mapping "Wide" "output/Wide.plist"
           (plist_data [create_articulation_dict 1 "Low" (-5);
                        create_articulation_dict 2 "High" 300] "Wide.plist")).
  vm_compute. reflexivity.
Defined.

(** C6: for the empty mapping the builder does not raise; the document
    has no entries and holds all seven top-level keys, the fixed ones
    with their fixed values; and [generate_articulation_set] goes on to
    write and report that document. *)
Theorem empty_mapping_document (name output_path : string) :
  ∃ doc,
    build_document ∅ name output_path = inr doc ∧
    entries doc = [] ∧
    keys_of doc = ["Articulations"; "InputMidiChannel"; "MultipleOutputsActive";
                   "Name"; "OctaveOffset"; "Switches"; "SwitchingEnabled"] ∧
    field "Articulations" doc = Some (PArray []) ∧
    field "InputMidiChannel" doc = Some (PInt (-1)) ∧
    field "MultipleOutputsActive" doc = Some (PBool false) ∧
    field "Name" doc = Some (PStr (PosixPath.basename output_path)) ∧
    field "OctaveOffset" doc = Some (PInt 0) ∧
    field "Switches" doc = Some (PArray []) ∧
    field "SwitchingEnabled" doc = Some (PBool false) ∧
    ∀ cwd plistlib_dump,
      generate_articulation_set cwd plistlib_dump ∅ name output_path
      = emit_document cwd plistlib_dump output_path [].
Proof.
  exists (plist_data [] (PosixPath.basename output_path)).
  split_and!; reflexivity.
Qed.

(** The generator run on the empty mapping from an empty file system. *)
Example empty_mapping_run :
  let r := generate_articulation_set ["work"] name_dump ∅ "Empty" "output/Empty.plist"
             (mkWorld ∅ [] []) in
  r.1 = inr "output/Empty.plist" ∧
  fs r.2 !! ["work"; "output"; "Empty.plist"] = Some (File "Empty.plist") ∧
  stdout r.2 = [ "Generated articulation set: output/Empty.plist";
                 "  Name: Empty.plist";
                 "  Articulations: 0" ].
Proof. vm_compute. by split_and!. Qed.

(** The scenario of the specification, as the code runs it. *)
Example scenario_document :
  build_document scenario_mapping "Test" "output/Test.plist"
  = inr (PDict
           [ ("Articulations",
              PArray
                [ PDict [ ("ArticulationID", PInt 1); ("ID", PInt 1001);
                          ("Name", PStr "Legato");
                          ("Output",
                           PArray [PDict [("MB1", PInt 0); ("Status", PStr "Note On")]]) ];
                  PDict [ ("ArticulationID", PInt 2); ("ID", PInt 1002);
                          ("Name", PStr "Spiccato");
                          ("Output",
                           PArray [PDict [("MB1", PInt 2); ("Status", PStr "Note On")]]) ] ]);
             ("InputMidiChannel", PInt (-1));
             ("MultipleOutputsActive", PBool false);
             ("Name", PStr "Test.plist");
             ("OctaveOffset", PInt 0);
             ("Switches", PArray []);
             ("SwitchingEnabled", PBool false) ]).
Proof. vm_compute. reflexivity. Qed.

(** C9: the [name] argument of [generate_articulation_set] has no
    influence: with the same mapping and output path, in the same
    process state, two calls with different names return the same
    value, raise the same exception if any, and leave the same file
    system and the same output; the document built is the same too. *)
Theorem name_is_not_read (cwd : path) (plistlib_dump : plist → bytes * option exn)
    (m : mapping) (name1 name2 output_path : string) (w : World) :
  generate_articulation_set cwd plistlib_dump m name1 output_path w
  = generate_articulation_set cwd plistlib_dump m name2 output_path w
  ∧ build_document m name1 output_path = build_document m name2 output_path.
Proof. split; reflexivity. Qed.

(** * Facts about path strings *)

Example basename_ex : PosixPath.basename "output/Musio/Violin I.plist" = "Violin I.plist".
Proof. reflexivity. Qed.
Example dirname_ex : PosixPath.dirname "output/Musio/Violin I.plist" = "output/Musio".
Proof. reflexivity. Qed.
Example dirname_ex2 : PosixPath.dirname "Test.plist" = "".
Proof. reflexivity. Qed.
Example splitext_ex : PosixPath.splitext "Violin I.plist" = ("Violin I", ".plist").
Proof. reflexivity. Qed.
Example splitext_ex2 : PosixPath.splitext "a.b/.bashrc" = ("a.b/.bashrc", "").
Proof. reflexivity. Qed.
Example join_ex : PosixPath.join "output" "Musio/Violin I.plist" = "output/Musio/Violin I.plist".
Proof. reflexivity. Qed.
Example components_ex : PosixPath.components "/a//b/" = [""; "a"; ""; "b"; ""].
Proof. reflexivity. Qed.

Module PosixPathFacts.
Import PosixPath.

Lemma rfind_lower c s : -1 ≤ rfind c s.
Proof. induction s as [|a s IH]; simpl; [lia|]. repeat case_match; lia. Qed.

Lemma rfind_cons_absent c a s :
  rfind c (String a s) < 0 ↔ a ≠ c ∧ rfind c s < 0.
Proof.
  simpl. pose proof (rfind_lower c s).
  destruct (0 <=? rfind c s) eqn:Hr; [apply Z.leb_le in Hr; lia|].
  apply Z.leb_gt in Hr.
  destruct (Ascii.eqb a c) eqn:Hac.
  - apply Ascii.eqb_eq in Hac. split; [lia|]. intros [? _]. done.
  - apply Ascii.eqb_neq in Hac. split; [done|lia].
Qed.

Lemma components_nonempty s : components s ≠ [].
Proof. destruct s as [|a s]; simpl; [done|]. repeat case_match; done. Qed.

Lemma components_append_sep a b :
  components (a +:+ String sep b) = components a ++ components b.
Proof.
  induction a as [|c a IH]; simpl; [done|].
  rewrite IH. destruct (Ascii.eqb c sep); [done|].
  pose proof (components_nonempty a).
  destruct (components a); done.
Qed.

Lemma components_absent n : rfind sep n < 0 → components n = [n].
Proof.
  induction n as [|a n IH]; [done|].
  intros [Ha Hn]%rfind_cons_absent. simpl.
  apply Ascii.eqb_neq in Ha. rewrite Ha, IH; done.
Qed.

Lemma startswith_sep_append a b : a ≠ "" → startswith_sep (a +:+ b) = startswith_sep a.
Proof. by destruct a. Qed.

Lemma endswith_sep_append a b : b ≠ "" → endswith_sep (a +:+ b) = endswith_sep b.
Proof.
  intros Hb. induction a as [|c a IH]; [done|].
  simpl. rewrite IH. destruct (a +:+ b) eqn:Heq; [|done].
  destruct a; [simpl in Heq; done|done].
Qed.

Lemma endswith_sep_absent n : rfind sep n < 0 → endswith_sep n = false.
Proof.
  induction n as [|a n IH]; [done|].
  intros [Ha Hn]%rfind_cons_absent. simpl.
  destruct n; [by apply Ascii.eqb_neq|by apply IH].
Qed.

Lemma append_empty a b : a +:+ b = "" → a = "" ∧ b = "".
Proof. by destruct a. Qed.

Lemma rfind_append_sep c a n :
  rfind c n < 0 → rfind c (a +:+ String c n) = Z.of_nat (String.length a).
Proof.
  intros Hn. induction a as [|x a IH].
  - simpl. destruct (0 <=? rfind c n) eqn:Hr; [apply Z.leb_le in Hr; lia|].
    by rewrite Ascii.eqb_refl.
  - change (rfind c (String x a +:+ String c n))
      with (let r := rfind c (a +:+ String c n) in
            if 0 <=? r then r + 1 else if Ascii.eqb x c then 0 else -1).
    rewrite IH. cbv zeta.
    destruct (0 <=? Z.of_nat (String.length a)) eqn:Hr;
      [simpl String.length; lia|].
    apply Z.leb_gt in Hr. lia.
Qed.

Lemma drop_append a b : drop (String.length a) (a +:+ b) = b.
Proof. induction a; [by destruct b|done]. Qed.

Lemma basename_append_sep a n : rfind sep n < 0 → basename (a +:+ String sep n) = n.
Proof.
  intros Hn. unfold basename. rewrite rfind_append_sep by done.
  replace (Z.to_nat (Z.of_nat (String.length a) + 1))
    with (String.length (a +:+ String sep "")).
  - replace (a +:+ String sep n) with ((a +:+ String sep "") +:+ n).
    + apply drop_append.
    + clear. induction a as [|x a IH]; [done|].
      change (String x ((a +:+ String sep "") +:+ n) = String x (a +:+ String sep n)).
      by rewrite IH.
  - clear. induction a as [|x a IH]; [done|].
    change (S (String.length (a +:+ String sep ""))
            = Z.to_nat (Z.of_nat (S (String.length a)) + 1)).
    rewrite IH. lia.
Qed.

Lemma valid_name_spec n :
  valid_name n = true ↔ n ≠ "" ∧ n ≠ "." ∧ n ≠ ".." ∧ rfind sep n < 0.
Proof.
  unfold valid_name. rewrite !andb_true_iff, !negb_true_iff, Z.ltb_lt.
  rewrite !String.eqb_neq. tauto.
Qed.

(** Joining a directory and a valid name puts one separator between. *)
Lemma join_name a n :
  a ≠ "" → endswith_sep a = false → valid_name n = true →
  join a n = a +:+ String sep n.
Proof.
  intros Ha He (Hn & _ & _ & Hs)%valid_name_spec. unfold join.
  destruct n as [|x n]; [done|].
  apply rfind_cons_absent in Hs as [Hx _].
  apply Ascii.eqb_neq in Hx. simpl. rewrite Hx, He.
  apply String.eqb_neq in Ha. by rewrite Ha.
Qed.

End PosixPathFacts.

(** * Facts about the file-system operations *)

Module FSFacts.
Import FS.

Implicit Types (f : gmap path node) (p k s : path) (n : node).

Lemma strip_prefix_app p s : strip_prefix p (p ++ s) = Some s.
Proof. induction p as [|a p IH]; simpl; [done|]. by rewrite decide_True. Qed.

Lemma strip_prefix_Some p k s : strip_prefix p k = Some s ↔ k = p ++ s.
Proof.
  split; [|intros ->; apply strip_prefix_app].
  revert k. induction p as [|a p IH]; intros k; simpl; [by intros [= ->]|].
  destruct k as [|b k]; [done|]. case_decide; [|done].
  subst. intros ->%IH. done.
Qed.

Lemma strip_prefix_None p k : strip_prefix p k = None ↔ ¬ p `prefix_of` k.
Proof.
  split.
  - intros Hn [s ->]. by rewrite strip_prefix_app in Hn.
  - intros Hn. destruct (strip_prefix p k) as [s|] eqn:Hs; [|done].
    apply strip_prefix_Some in Hs. destruct Hn. by exists s.
Qed.

Lemma stat_nonempty f p : p ≠ [] → stat f p = f !! p.
Proof. by destruct p. Qed.

Lemma stat_snoc f p c : stat f (p ++ [c]) = f !! (p ++ [c]).
Proof. apply stat_nonempty. by destruct p. Qed.

Lemma child_name_Some p k c : child_name p k = Some c ↔ k = p ++ [c].
Proof.
  unfold child_name. split.
  - destruct (strip_prefix p k) as [[|c' [|? ?]]|] eqn:Hs; try done.
    intros [= ->]. by apply strip_prefix_Some.
  - intros ->. by rewrite strip_prefix_app.
Qed.

Lemma elem_of_children f p c : c ∈ children f p ↔ is_Some (f !! (p ++ [c])).
Proof.
  unfold children. rewrite list_elem_of_omap. split.
  - intros (k & Hk & ->%child_name_Some).
    apply list_elem_of_fmap in Hk as [[k' v] [-> Hkv]].
    apply elem_of_map_to_list in Hkv. eauto.
  - intros [v Hv]. exists (p ++ [c]). split; [|by apply child_name_Some].
    apply list_elem_of_fmap. exists (p ++ [c], v).
    split; [done|]. by apply elem_of_map_to_list.
Qed.

Lemma NoDup_omap_inj {A B} (g : A → option B) (l : list A) :
  (∀ x y z, g x = Some z → g y = Some z → x = y) →
  NoDup l → NoDup (omap g l).
Proof.
  intros Hinj. induction 1 as [|x l Hx Hl IH]; simpl; [constructor|].
  destruct (g x) as [z|] eqn:Hz; [|done].
  constructor; [|done].
  intros (y & Hy & Hgy)%list_elem_of_omap.
  by rewrite (Hinj _ _ _ Hz Hgy) in Hx.
Qed.

Lemma NoDup_children f p : NoDup (children f p).
Proof.
  apply NoDup_omap_inj; [|apply NoDup_fst_map_to_list].
  intros x y z ->%child_name_Some ->%child_name_Some. done.
Qed.

Lemma lookup_remove_below p f k :
  remove_below p f !! k = if decide (p `prefix_of` k) then None else f !! k.
Proof.
  unfold remove_below. case_decide as Hp.
  - apply map_lookup_filter_None. right. intros v _. simpl.
    by intros ?%strip_prefix_None.
  - destruct (f !! k) as [v|] eqn:Hk.
    + apply map_lookup_filter_Some. split; [done|]. simpl.
      by apply strip_prefix_None.
    + apply map_lookup_filter_None. by left.
Qed.

Lemma regraft_Some src dst kv kv' :
  regraft src dst kv = Some kv' ↔
  ∃ c s, kv.1 = src ++ c :: s ∧ kv'.1 = dst ++ c :: s ∧ kv'.2 = kv.2.
Proof.
  unfold regraft. split.
  - destruct (strip_prefix src kv.1) as [[|c s]|] eqn:Hs; try done.
    intros [= <-]. apply strip_prefix_Some in Hs. by exists c, s.
  - intros (c & s & Hk & Hk' & Hv). rewrite Hk, strip_prefix_app.
    destruct kv'. simpl in *. by subst.
Qed.

Lemma lookup_grafted_Some src dst f k v :
  grafted src dst f !! k = Some v →
  ∃ c s, k = dst ++ c :: s ∧ f !! (src ++ c :: s) = Some v.
Proof.
  intros Hk. apply elem_of_list_to_map_2, list_elem_of_omap in Hk.
  destruct Hk as ([k0 v0] & Hkv & (c & s & Hk0 & Hk' & Hv)%regraft_Some).
  simpl in *. subst. apply elem_of_map_to_list in Hkv. eauto.
Qed.

Lemma lookup_grafted src dst f c s :
  grafted src dst f !! (dst ++ c :: s) = f !! (src ++ c :: s).
Proof.
  destruct (grafted src dst f !! (dst ++ c :: s)) as [v|] eqn:Hg.
  - apply lookup_grafted_Some in Hg as (c' & s' & Heq & Hv).
    apply app_inv_head in Heq. by rewrite Heq.
  - apply not_elem_of_list_to_map in Hg.
    destruct (f !! (src ++ c :: s)) as [v|] eqn:Hf; [|done].
    destruct Hg. apply list_elem_of_fmap.
    exists (dst ++ c :: s, v). split; [done|].
    apply list_elem_of_omap. exists (src ++ c :: s, v).
    split; [by apply elem_of_map_to_list|].
    apply regraft_Some. by exists c, s.
Qed.

Lemma lookup_grafted_outside src dst f k :
  (∀ c s, k ≠ dst ++ c :: s) → grafted src dst f !! k = None.
Proof.
  intros Hk. destruct (grafted src dst f !! k) as [v|] eqn:Hg; [|done].
  apply lookup_grafted_Some in Hg as (c & s & -> & _). by destruct (Hk c s).
Qed.

(** What [makedirs_from] changes: only missing prefixes of the target,
    which become directories; and the target is a directory afterwards. *)
Lemma makedirs_from_spec exist_ok above rest f f' :
  makedirs_from exist_ok above rest f = inr f' →
  (∀ p, f' !! p = f !! p ∨
        (f !! p = None ∧ f' !! p = Some Dir ∧ p `prefix_of` above ++ rest)) ∧
  (rest ≠ [] → f' !! (above ++ rest) = Some Dir).
Proof.
  revert above f. induction rest as [|c rest IH]; intros above f; simpl.
  { intros [= ->]. split; [by left|done]. }
  rewrite stat_snoc.
  assert (above ++ c :: rest = (above ++ [c]) ++ rest) as Hassoc
    by by rewrite <- app_assoc.
  rewrite Hassoc.
  destruct (f !! (above ++ [c])) as [[|d]|] eqn:Hc.
  - destruct rest as [|c' rest].
    + destruct exist_ok; [|done]. intros [= ->].
      rewrite app_nil_r. split; [by left|done].
    + intros [Hfr Ht]%IH. split; [done|]. intros _. by apply Ht.
  - destruct rest; done.
  - intros [Hfr Ht]%IH. split.
    + intros p. destruct (Hfr p) as [Hp|(Hp1 & Hp2 & Hp3)].
      * destruct (decide (p = above ++ [c])) as [->|Hne].
        -- rewrite lookup_insert_eq in Hp. right. split_and!; [done..|].
           by apply prefix_app_r.
        -- rewrite lookup_insert_ne in Hp by done. by left.
      * right. split_and!; [|done..].
        destruct (decide (p = above ++ [c])) as [->|Hne].
        -- by rewrite lookup_insert_eq in Hp1.
        -- by rewrite lookup_insert_ne in Hp1.
    + intros _. destruct rest as [|c' rest].
      * simpl in *. rewrite app_nil_r.
        destruct (Hfr (above ++ [c])) as [Hp|(Hp & _)].
        -- by rewrite Hp, lookup_insert_eq.
        -- by rewrite lookup_insert_eq in Hp.
      * by apply Ht.
Qed.

Lemma makedirs_spec exist_ok p f f' :
  makedirs exist_ok p f = inr f' →
  (∀ q, f' !! q = f !! q ∨
        (f !! q = None ∧ f' !! q = Some Dir ∧ q `prefix_of` p)) ∧
  stat f' p = Some Dir.
Proof.
  destruct p as [|c p]; unfold makedirs.
  - destruct exist_ok; [|done]. intros [= ->]. split; [by left|done].
  - intros [Hfr Ht]%makedirs_from_spec. split; [done|].
    rewrite stat_nonempty by done. by apply Ht.
Qed.

Lemma makedirs_frame exist_ok p f f' q :
  makedirs exist_ok p f = inr f' → ¬ q `prefix_of` p → f' !! q = f !! q.
Proof.
  intros [Hfr _]%makedirs_spec Hq.
  destruct (Hfr q) as [?|(_ & _ & ?)]; done.
Qed.

(** [makedirs] with [exist_ok] succeeds when no regular file lies on the
    way to the target. *)
Lemma makedirs_from_succeeds above rest f :
  (∀ q d, q `prefix_of` rest → f !! (above ++ q) ≠ Some (File d)) →
  ∃ f', makedirs_from true above rest f = inr f'.
Proof.
  revert above f. induction rest as [|c rest IH]; intros above f Hfree; simpl.
  { eauto. }
  rewrite stat_snoc.
  assert (∀ g, (∀ q, g !! ((above ++ [c]) ++ q) = f !! (above ++ c :: q)
                     ∨ g !! ((above ++ [c]) ++ q) = Some Dir) →
               ∃ f', makedirs_from true (above ++ [c]) rest g = inr f') as Hrec.
  { intros g Hg. apply IH. intros q d Hq.
    destruct (Hg q) as [->| ->]; [|done].
    apply Hfree. by apply prefix_cons. }
  destruct (f !! (above ++ [c])) as [[|d]|] eqn:Hc.
  - destruct rest as [|c' rest]; [eauto|].
    apply Hrec. intros q. left. by rewrite <- app_assoc.
  - destruct (Hfree [c] d); [|done].
    apply (prefix_app [c] [] rest), prefix_nil.
  - apply Hrec. intros q.
    destruct (decide ((above ++ [c]) ++ q = above ++ [c])) as [Heq|Hne].
    + right. by rewrite Heq, lookup_insert_eq.
    + left. rewrite lookup_insert_ne by done. by rewrite <- app_assoc.
Qed.





Lemma makedirs_succeeds p f :
  (∀ q d, q `prefix_of` p → f !! q ≠ Some (File d)) →
  ∃ f', makedirs true p f = inr f'.
Proof.
  intros Hfree. destruct p as [|c p]; unfold makedirs; [eauto|].
  by apply makedirs_from_succeeds.
Qed.

End FSFacts.

(** * Frames *)

Section Frames.

Implicit Types (f : gmap path node) (S : path → Prop).

Global Instance agree_on_preorder S : PreOrder (agree_on S).
Proof.
  split.
  - by intros f p _.
  - intros f1 f2 f3 H12 H23 p Hp. by rewrite (H23 p Hp), (H12 p Hp).
Qed.

Lemma agree_on_weaken S S' f f' :
  (∀ p, S' p → S p) → agree_on S f f' → agree_on S' f f'.
Proof. intros HS H p Hp. by apply H, HS. Qed.

Context {Q : relation (gmap path node)} `{!PreOrder Q}.

Lemma preserves_ret {A : Type} (a : A) : preserves Q (ret a).
Proof. intros w r w' [= _ <-]. done. Qed.

Lemma preserves_raise {A : Type} e : preserves Q (@raise A e).
Proof. intros w r w' [= _ <-]. done. Qed.

Lemma preserves_bind {A B : Type} (c : M A) (k : A → M B) :
  preserves Q c → (∀ a, preserves Q (k a)) → preserves Q (bind c k).
Proof.
  intros Hc Hk w r w'. unfold bind.
  destruct (c w) as [[e|a] w1] eqn:Hcw.
  - intros [= _ <-]. by eapply Hc.
  - intros Hkw. transitivity (fs w1); [by eapply Hc|by eapply Hk].
Qed.

Lemma preserves_read {A : Type} (c : M A) :
  (∀ w, (c w).2 = w) → preserves Q c.
Proof. intros Hc w r w' Hw. specialize (Hc w). rewrite Hw in Hc. by subst. Qed.

Lemma preserves_print line : preserves Q (print line).
Proof. intros w r w' [= _ <-]. done. Qed.

Lemma preserves_print_err line : preserves Q (print_err line).
Proof. intros w r w' [= _ <-]. done. Qed.

Lemma preserves_lift_fs op :
  (∀ f f', op f = inr f' → Q f f') → preserves Q (lift_fs op).
Proof.
  intros Hop w r w'. unfold lift_fs.
  destruct (op (fs w)) as [e|f'] eqn:Hf; intros [= _ <-]; [done|].
  by apply Hop.
Qed.

Lemma preserves_for_each {A : Type} (xs : list A) (body : A → M unit) :
  (∀ x, x ∈ xs → preserves Q (body x)) → preserves Q (for_each xs body).
Proof.
  induction xs as [|x xs IH]; intros Hbody; simpl.
  - apply preserves_ret.
  - apply preserves_bind.
    + apply Hbody. left.
    + intros _. apply IH. intros y Hy. apply Hbody. by right.
Qed.

End Frames.

Module FSFrames.
Import FS FSFacts.

Implicit Types (f : gmap path node) (p q src dst : path).

Lemma makedirs_agree exist_ok q f f' :
  makedirs exist_ok q f = inr f' → agree_on (λ p, ¬ p `prefix_of` q) f f'.
Proof. intros Hm p Hp. by eapply makedirs_frame. Qed.

Lemma rmtree_agree q f f' :
  rmtree q f = inr f' → agree_on (λ p, ¬ q `prefix_of` p) f f'.
Proof.
  unfold rmtree. destruct (stat f q) as [[|d]|]; intros [= <-] p Hp.
  rewrite lookup_remove_below. by rewrite decide_False.
Qed.

Lemma write_file_agree q data f f' :
  write_file q data f = inr f' → agree_on (λ p, p ≠ q) f f'.
Proof.
  unfold write_file. destruct q as [|c q]; [done|].
  destruct (stat f (removelast (c :: q))) as [[|d]|]; try done.
  destruct (stat f (c :: q)) as [[|d]|]; intros [= <-] p Hp;
    by rewrite lookup_insert_ne.
Qed.

Lemma copyfile_agree src dst f f' :
  copyfile src dst f = inr f' → agree_on (λ p, p ≠ dst) f f'.
Proof.
  unfold copyfile. destruct (stat f src) as [[|d]|]; try done.
  case_decide; [done|]. apply write_file_agree.
Qed.

Lemma copytree_agree src dst f f' :
  copytree src dst f = inr f' →
  agree_on (λ p, ¬ p `prefix_of` dst ∧ ¬ dst `prefix_of` p) f f'.
Proof.
  unfold copytree. destruct (stat f src) as [[|d]|]; try done.
  destruct (makedirs false dst f) as [e|f2] eqn:Hm; intros [= <-] p [Hp1 Hp2].
  rewrite lookup_union_r.
  - by eapply makedirs_frame.
  - apply lookup_grafted_outside. intros c s ->. apply Hp2. by eexists.
Qed.

Global Instance keeps_dirs_preorder dest : PreOrder (keeps_dirs dest).
Proof.
  split.
  - intros f p _. by left.
  - intros f1 f2 f3 H12 H23 p Hp.
    destruct (H12 p Hp) as [E12|[N1 D2]], (H23 p Hp) as [E23|[N2 D3]].
    + left. congruence.
    + right. split; congruence.
    + right. split; congruence.
    + congruence.
Qed.




End FSFrames.

(** * The installer *)

Section Installer.

Variable cwd : path.
Variable home : string.

Import PosixPath PosixPathFacts FS FSFacts FSFrames.

Local Abbreviation R := (source_root cwd).
Local Abbreviation D := (destination_root cwd home).

Lemma prefix_snoc_cases {A} (p l : list A) (x : A) :
  p `prefix_of` l ++ [x] → p `prefix_of` l ∨ p = l ++ [x].
Proof.
  intros [k Hk]. destruct k as [|y k _] using rev_ind.
  - right. by rewrite app_nil_r in Hk.
  - left. rewrite app_assoc in Hk. apply app_inj_tail in Hk as [-> _].
    by exists k.
Qed.

Lemma source_root_eq : R = cwd ++ ["output"].
Proof. reflexivity. Qed.

Lemma source_root_nonempty : R ≠ [].
Proof. rewrite source_root_eq. by destruct cwd. Qed.

Lemma resolve_step_name acc n :
  valid_name n = true → resolve_step acc n = acc ++ [n].
Proof.
  intros (H1 & H2 & H3 & _)%valid_name_spec. unfold resolve_step.
  rewrite decide_False by (intros [?|?]; done).
  by rewrite decide_False.
Qed.

Lemma resolve_append_name a n :
  a ≠ "" → valid_name n = true →
  resolve cwd (a +:+ String sep n) = resolve cwd a ++ [n].
Proof.
  intros Ha Hn. unfold resolve.
  assert (rfind sep n < 0) as Hs by (by apply valid_name_spec in Hn as (_ & _ & _ & ?)).
  rewrite components_append_sep, startswith_sep_append by done.
  rewrite (components_absent n) by done.
  rewrite fold_left_app. simpl. by apply resolve_step_name.
Qed.

Lemma LOGIC_PRO_PATH_nonempty : LOGIC_PRO_PATH home ≠ "".
Proof. by intros [_ ?]%append_empty. Qed.

Lemma LOGIC_PRO_PATH_no_trailing_sep : endswith_sep (LOGIC_PRO_PATH home) = false.
Proof. unfold LOGIC_PRO_PATH. by rewrite endswith_sep_append. Qed.

Lemma join_source n :
  valid_name n = true → join ROOT_PATH n = ROOT_PATH +:+ String sep n.
Proof. by apply join_name. Qed.

Lemma join_destination n :
  valid_name n = true →
  join (LOGIC_PRO_PATH home) n = LOGIC_PRO_PATH home +:+ String sep n.
Proof.
  apply join_name;
    [apply LOGIC_PRO_PATH_nonempty|apply LOGIC_PRO_PATH_no_trailing_sep].
Qed.

Lemma resolve_source_item n :
  valid_name n = true → resolve cwd (join ROOT_PATH n) = R ++ [n].
Proof. intros Hn. rewrite join_source by done. by apply resolve_append_name. Qed.

Lemma resolve_destination_item n :
  valid_name n = true → resolve cwd (join (LOGIC_PRO_PATH home) n) = D ++ [n].
Proof.
  intros Hn. rewrite join_destination by done.
  apply resolve_append_name; [apply LOGIC_PRO_PATH_nonempty|done].
Qed.

(** Where [shutil.copy2] puts a file whose destination is a directory. *)
Lemma resolve_destination_inside n :
  valid_name n = true →
  resolve cwd (join (join (LOGIC_PRO_PATH home) n) (basename (join ROOT_PATH n)))
  = (D ++ [n]) ++ [n].
Proof.
  intros Hn. pose proof Hn as Hn'.
  apply valid_name_spec in Hn' as (Hne & _ & _ & Hs).
  rewrite join_source, basename_append_sep, join_destination by done.
  rewrite join_name; [|by intros [_ ?]%append_empty| |done].
  - rewrite resolve_append_name; [|by intros [_ ?]%append_empty|done].
    rewrite resolve_append_name; [done|apply LOGIC_PRO_PATH_nonempty|done].
  - rewrite endswith_sep_append by done.
    destruct n as [|x n]; [done|]. by apply (endswith_sep_absent (String x n)).
Qed.

(** A round of the loop for [item] leaves every path outside its own
    destination as it was. *)
Lemma copy_item_frame item :
  valid_name item = true →
  preserves (agree_on (outside D item)) (copy_item cwd home item).
Proof.
  intros Hn. unfold copy_item. cbv zeta.
  apply preserves_bind; [by apply preserves_read|]. intros [|].
  - apply preserves_bind; [by apply preserves_read|]. intros present.
    apply preserves_bind.
    + destruct present; [|apply preserves_ret].
      unfold shutil_rmtree. rewrite resolve_destination_item by done.
      apply preserves_lift_fs. intros f f' Hop.
      eapply agree_on_weaken; [|by eapply rmtree_agree].
      by intros p [_ Hp].
    + intros _. apply preserves_bind; [|intros; apply preserves_ret].
      unfold shutil_copytree.
      rewrite resolve_source_item, resolve_destination_item by done.
      apply preserves_lift_fs. intros f f' Hop.
      eapply agree_on_weaken; [|by eapply copytree_agree].
      intros p [Hp1 Hp2]. split; [|done].
      intros [?| ->]%prefix_snoc_cases; [done|]. by apply Hp2.
  - apply preserves_bind; [|intros; apply preserves_ret].
    unfold shutil_copy2.
    apply preserves_bind; [by apply preserves_read|]. intros d. cbv zeta.
    apply preserves_lift_fs. intros f f' Hop.
    eapply agree_on_weaken; [|by eapply copyfile_agree].
    intros p [Hp1 Hp2] ->. apply Hp2. destruct d.
    + rewrite resolve_destination_inside by done. by apply prefix_app_r.
    + by rewrite resolve_destination_item.
Qed.

(** The loop leaves alone every path outside the destinations of its
    items. *)
Lemma copy_items_frame items copied_items :
  Forall (λ n, valid_name n = true) items →
  preserves (agree_on (λ p, ∀ item, item ∈ items → outside D item p))
            (copy_items cwd home items copied_items).
Proof.
  intros Hall. revert copied_items.
  induction Hall as [|item items Hn _ IH]; intros copied_items; simpl.
  - apply preserves_ret.
  - apply preserves_bind.
    + intros w r w' Hrun. eapply agree_on_weaken; [|by eapply copy_item_frame].
      intros p Hp. apply Hp. left.
    + intros line w r w' Hrun. eapply agree_on_weaken; [|by eapply IH].
      intros p Hp item' Hi. apply Hp. by right.
Qed.

Lemma disjoint_source_destination item item' (s' : path) :
  ¬ R `prefix_of` D → ¬ D `prefix_of` R →
  ¬ (D ++ [item]) `prefix_of` (R ++ item' :: s') ∧
  ¬ (R ++ item' :: s') `prefix_of` D.
Proof.
  intros HRD HDR. split.
  - intros Hp. apply prefix_app_l in Hp.
    destruct (prefix_weak_total D R (R ++ item' :: s')); [done|by apply prefix_app_r|done..].
  - intros Hp. by apply prefix_app_l in Hp.
Qed.



Lemma outside_source item item' (s : path) :
  ¬ R `prefix_of` D → ¬ D `prefix_of` R → outside D item (R ++ item' :: s).
Proof.
  intros HRD HDR. destruct (disjoint_source_destination item item' s HRD HDR).
  by split.
Qed.

Lemma outside_other_destination item item' (s : path) :
  item ≠ item' → outside D item (D ++ item' :: s).
Proof.
  intros Hne. split.
  - intros Hp%prefix_length. rewrite length_app in Hp. simpl in Hp. lia.
  - intros Hp%prefix_app_inv. by apply prefix_cons_inv_1 in Hp.
Qed.



Lemma isdir_true f p : isdir f p = true ↔ stat f p = Some Dir.
Proof. unfold isdir. by rewrite bool_decide_eq_true. Qed.

Lemma exists_true f p : exists_ f p = true ↔ is_Some (stat f p).
Proof. unfold exists_. by rewrite bool_decide_eq_true. Qed.

(** The report at the end of [copy_to_logic_pro] does not touch the file
    system. *)
Lemma report_keeps_fs (copied_items : list string) :
  preserves (=)
    (match copied_items with
     | _ :: _ =>
         run print (newline +:+ "Copied to Logic Pro location ("
                    +:+ LOGIC_PRO_PATH home +:+ "):");
         for_each copied_items (λ item, print ("  " +:+ item))
     | [] => print ("No items found in '" +:+ ROOT_PATH +:+ "' to copy")
     end).
Proof.
  destruct copied_items; [apply preserves_print|].
  apply preserves_bind; [apply preserves_print|]. intros _.
  apply preserves_for_each. intros. apply preserves_print.
Qed.

(** The shape of a run of [copy_to_logic_pro] that returns, from a state
    in which the output root is a directory. *)
Lemma copy_to_logic_pro_returns w w' :
  isdir (fs w) R = true →
  copy_to_logic_pro cwd home w = (inr (), w') →
  ∃ f0 copied_items w1,
    makedirs true D (fs w) = inr f0 ∧
    copy_items cwd home (children f0 R) [] (set_fs f0 w) = (inr copied_items, w1) ∧
    fs w' = fs w1.
Proof.
  intros HR%isdir_true. unfold copy_to_logic_pro.
  rewrite bind_run. unfold os_path_exists.
  change (resolve cwd ROOT_PATH) with R.
  assert (exists_ (fs w) R = true) as -> by (apply exists_true; eauto).
  cbv beta iota. cbn [negb].
  rewrite bind_run. unfold os_makedirs, lift_fs at 1.
  change (resolve cwd (LOGIC_PRO_PATH home)) with D.
  destruct (makedirs true D (fs w)) as [e|f0] eqn:Hm; [done|].
  cbv beta iota. rewrite bind_run. unfold os_listdir, listdir.
  change (resolve cwd ROOT_PATH) with R. cbn [fs set_fs].
  assert (stat f0 R = Some Dir) as ->.
  { rewrite stat_nonempty in * by apply source_root_nonempty.
    apply makedirs_spec in Hm as [Hm _].
    destruct (Hm R) as [->|[? _]]; congruence. }
  cbv beta iota. rewrite bind_run.
  destruct (copy_items cwd home (children f0 R) [] (set_fs f0 w))
    as [[e|copied_items] w1] eqn:Hloop; [done|].
  intros Hreport. apply report_keeps_fs in Hreport. eauto 10.
Qed.


(** ** The installer returns *)









(** C7: when the output root does not exist, [copy_to_logic_pro] returns
    without raising; it adds one line to the error stream and leaves the
    file system and the standard output as they were.  A run of the
    script whose generation phase ends in such a state, with the install
    step requested, ends there as well, with exit status 0. *)
Theorem install_without_output_root (w : World) :
  exists_ (fs w) R = false →
  let w_end :=
    mkWorld (fs w) (stdout w)
            (stderr w ++ ["Error: Output directory 'output' does not exist"]) in
  copy_to_logic_pro cwd home w = (inr (), w_end) ∧
  ∀ (plistlib_dump : plist → bytes * option exn) (table : gmap string mapping)
    (w_start : World),
    generation_phase cwd plistlib_dump table w_start = (inr (), w) →
    main_with cwd home plistlib_dump table (mkArgs true) w_start = (inr (), w_end) ∧
    exit_code (main_with cwd home plistlib_dump table (mkArgs true) w_start) = 0.
Proof.
  intros Habsent w_end.
  assert (copy_to_logic_pro cwd home w = (inr (), w_end)) as Hinstall.
  { unfold copy_to_logic_pro. rewrite bind_run. unfold os_path_exists.
    change (resolve cwd ROOT_PATH) with R. by rewrite Habsent. }
  split; [done|].
  intros plistlib_dump table w_start Hgen.
  assert (main_with cwd home plistlib_dump table (mkArgs true) w_start
          = (inr (), w_end)) as Hmain.
  { unfold main_with. rewrite bind_run, Hgen. done. }
  split; [done|]. by rewrite Hmain.
Qed.



End Installer.

(** ** Concrete runs *)

Lemma returned_state {A : Type} (r : (exn + A) * World) (a : A) :
  r.1 = inr a → r = (inr a, r.2).
Proof. destruct r as [? ?]. simpl. by intros ->. Qed.

Lemma install_without_output_root_witness :
  let w := mkWorld ∅ ["Generating 0 articulation set(s)..." +:+ newline] [] in
  let w_end :=
    mkWorld ∅ ["Generating 0 articulation set(s)..." +:+ newline]
            ["Error: Output directory 'output' does not exist"] in
  copy_to_logic_pro ["work"] "/home/u" w = (inr (), w_end) ∧
  main_with ["work"] "/home/u" no_dump ∅ (mkArgs true) (mkWorld ∅ [] []) = (inr (), w_end) ∧
  exit_code (main_with ["work"] "/home/u" no_dump ∅ (mkArgs true) (mkWorld ∅ [] [])) = 0.
Proof.
  intros w w_end.
  destruct (install_without_output_root ["work"] "/home/u" w) as [Hinstall Hmain].
  - vm_compute. reflexivity.
  - split; [exact Hinstall|].
    apply (Hmain no_dump ∅ (mkWorld ∅ [] [])). vm_compute. reflexivity.
Defined.


(** What the installer leaves of the stale destination folder: the old
    file is gone, the file of the source is there. *)
Example installed_world_replaced :
  fs stale_world !! (destination_root ["work"] "/home/u" ++ ["Musio"; "Old.plist"])
  = Some (File "old") ∧
  fs installed_world !! (destination_root ["work"] "/home/u" ++ ["Musio"; "Old.plist"])
  = None ∧
  fs installed_world !! (destination_root ["work"] "/home/u" ++ ["Musio"; "Violin.plist"])
  = Some (File "new") ∧
  fs installed_world !! (destination_root ["work"] "/home/u" ++ ["Top.plist"])
  = Some (File "top").
Proof. vm_compute. by split_and!. Qed.


(** In that run [os.makedirs] raises [NotADirectoryError]; nothing has
    changed and nothing was printed. *)
Example music_file_run :
  copy_to_logic_pro ["work"] "/home/u" music_file_world
  = (inl NotADirectoryError, music_file_world).
Proof. vm_compute. reflexivity. Qed.


(** * More about the installer *)

Section InstallerRounds.

Variable cwd : path.
Variable home : string.

Import PosixPath PosixPathFacts FS FSFacts FSFrames.

Local Abbreviation R := (source_root cwd).
Local Abbreviation D := (destination_root cwd home).

Hypothesis HRD : ¬ R `prefix_of` D.
Hypothesis HDR : ¬ D `prefix_of` R.

Lemma item_region_outside item item' p :
  item ≠ item' → item_region R D item' p → outside D item p.
Proof.
  intros Hne [[s ->]|[s ->]]; rewrite <- app_assoc.
  - by apply outside_source.
  - by apply outside_other_destination.
Qed.




(** A returning loop contains a returning round for each of its items,
    run in a state that agrees with the initial one on the paths of the
    item, and whose result on those paths is what the loop ends with. *)
Lemma copy_items_round items item copied_items w result w' :
  Forall (λ n, valid_name n = true) items → NoDup items → item ∈ items →
  copy_items cwd home items copied_items w = (inr result, w') →
  ∃ w0 line w1,
    copy_item cwd home item w0 = (inr line, w1) ∧
    agree_on (item_region R D item) (fs w) (fs w0) ∧
    agree_on (item_region R D item) (fs w1) (fs w').
Proof.
  intros Hall. revert copied_items w.
  induction Hall as [|i rest Hi Hrest IH]; intros copied_items w Hnd Hin.
  { by apply elem_of_nil in Hin. }
  apply NoDup_cons in Hnd as [Hfresh Hnd].
  cbn [copy_items]. rewrite bind_run.
  destruct (copy_item cwd home i w) as [[e|line] w1] eqn:Hstep; [done|].
  intros Hloop. destruct (decide (item = i)) as [->|Hne].
  - exists w, line, w1. split_and!; [done|done|].
    eapply agree_on_weaken; [|by eapply copy_items_frame].
    intros p Hp i' Hi'. eapply item_region_outside; [|done]. by intros ->.
  - apply elem_of_cons in Hin as [?|Hin]; [done|].
    destruct (IH _ _ Hnd Hin Hloop) as (w0 & line' & w2 & Hround & Hpre & Hpost).
    exists w0, line', w2. split_and!; [done| |done].
    transitivity (fs w1); [|done].
    eapply agree_on_weaken; [|by eapply copy_item_frame].
    intros p Hp. by eapply item_region_outside.
Qed.





(** The round for a directory copies everything the source holds at and
    below it. *)
Lemma copy_item_copies item w line w' :
  valid_name item = true →
  fs w !! (R ++ [item]) = Some Dir →
  copy_item cwd home item w = (inr line, w') →
  ∀ s n, fs w !! (R ++ item :: s) = Some n → fs w' !! (D ++ item :: s) = Some n.
Proof.
  intros Hn Hsrc. unfold copy_item. cbv zeta.
  rewrite bind_run. unfold os_path_isdir at 1.
  rewrite resolve_source_item by done.
  unfold isdir. rewrite stat_snoc, Hsrc, bool_decide_eq_true_2 by done.
  cbv beta iota. rewrite bind_run. unfold os_path_exists. cbv beta iota.
  rewrite bind_run.
  destruct ((if exists_ (fs w) (resolve cwd (join (LOGIC_PRO_PATH home) item))
             then shutil_rmtree cwd (join (LOGIC_PRO_PATH home) item)
             else ret ()) w) as [[e|[]] w1] eqn:Hrm; [done|].
  assert (agree_on (λ p, ¬ (D ++ [item]) `prefix_of` p) (fs w) (fs w1)) as Hagree.
  { destruct (exists_ _ _); [|by injection Hrm as <-].
    unfold shutil_rmtree, lift_fs in Hrm.
    rewrite resolve_destination_item in Hrm by done.
    destruct (rmtree (D ++ [item]) (fs w)) as [e|f1] eqn:Hf1; [done|].
    injection Hrm as <-. by apply rmtree_agree. }
  assert (∀ s, fs w1 !! ((R ++ [item]) ++ s) = fs w !! ((R ++ [item]) ++ s)) as Hkeep.
  { intros s. apply Hagree. rewrite <- app_assoc.
    by apply disjoint_source_destination. }
  rewrite bind_run. unfold shutil_copytree, lift_fs.
  rewrite resolve_source_item, resolve_destination_item by done.
  unfold copytree. pose proof (Hkeep []) as Hkeep0. rewrite app_nil_r in Hkeep0.
  rewrite stat_snoc, Hkeep0, Hsrc.
  destruct (makedirs false (D ++ [item]) (fs w1)) as [e|f2] eqn:Hm; [done|].
  cbv beta iota. intros [= _ <-] s n. cbn [fs set_fs].
  replace (D ++ item :: s) with ((D ++ [item]) ++ s) by (by rewrite <- app_assoc).
  replace (R ++ item :: s) with ((R ++ [item]) ++ s) by (by rewrite <- app_assoc).
  destruct s as [|c s].
  - rewrite !app_nil_r, Hsrc. intros [= <-]. rewrite lookup_union_r.
    + apply makedirs_spec in Hm as [_ Hm]. by rewrite stat_snoc in Hm.
    + apply lookup_grafted_outside. intros c s Heq.
      apply (f_equal length) in Heq. rewrite !length_app in Heq. simpl in Heq. lia.
  - intros Hs. apply lookup_union_Some_l. by rewrite lookup_grafted, Hkeep.
Qed.


(** The round for a directory whose name is taken by a regular file in
    the destination root raises, from [shutil.rmtree], and changes
    nothing. *)
Lemma copy_item_blocked item w d :
  valid_name item = true →
  fs w !! (R ++ [item]) = Some Dir →
  fs w !! (D ++ [item]) = Some (File d) →
  copy_item cwd home item w = (inl NotADirectoryError, w).
Proof.
  intros Hn Hsrc Hdst. unfold copy_item. cbv zeta.
  rewrite bind_run. unfold os_path_isdir at 1.
  rewrite resolve_source_item by done.
  unfold isdir. rewrite stat_snoc, Hsrc, bool_decide_eq_true_2 by done.
  cbv beta iota. rewrite bind_run. unfold os_path_exists.
  rewrite resolve_destination_item by done.
  unfold exists_. rewrite stat_snoc, Hdst, bool_decide_eq_true_2 by eauto.
  cbv beta iota. rewrite bind_run. unfold shutil_rmtree, lift_fs.
  rewrite resolve_destination_item by done.
  unfold rmtree. by rewrite stat_snoc, Hdst.
Qed.

Lemma item_region_off_way item p :
  item_region R D item p → ¬ p `prefix_of` D.
Proof.
  intros [Hp|Hp] Hq.
  - destruct HRD. apply (prefix_app_l R D [item]). by transitivity p.
  - apply (prefix_snoc_not D item). by transitivity p.
Qed.

(** A returning run of the installer contains a returning round for each
    entry of the source root. *)
Lemma install_round w w' item :
  isdir (fs w) R = true →
  (∀ n, is_Some (fs w !! (R ++ [n])) → valid_name n = true) →
  is_Some (fs w !! (R ++ [item])) →
  copy_to_logic_pro cwd home w = (inr (), w') →
  ∃ w0 line w1,
    copy_item cwd home item w0 = (inr line, w1) ∧
    agree_on (item_region R D item) (fs w) (fs w0) ∧
    agree_on (item_region R D item) (fs w1) (fs w').
Proof.
  intros HR Hnames Hitem Hrun.
  destruct (copy_to_logic_pro_returns _ _ _ _ HR Hrun)
    as (f0 & copied_items & w1 & Hm & Hloop & ->).
  pose proof (makedirs_agree _ _ _ _ Hm) as Hframe.
  assert (∀ n, f0 !! (R ++ [n]) = fs w !! (R ++ [n])) as Hsame.
  { intros n. apply Hframe. intros Hp. by apply prefix_app_l in Hp. }
  destruct (copy_items_round (children f0 R) item [] (set_fs f0 w) copied_items w1)
    as (w0 & line & w2 & Hround & Hpre & Hpost); try done.
  - apply Forall_forall. intros n Hn%elem_of_children.
    apply Hnames. by rewrite <- Hsame.
  - apply NoDup_children.
  - apply elem_of_children. by rewrite Hsame.
  - exists w0, line, w2. split_and!; [done| |done].
    transitivity f0; [|done].
    eapply agree_on_weaken; [|done]. apply item_region_off_way.
Qed.


(** A loop that meets a directory whose name is taken by a regular file
    in the destination root raises, and leaves the paths of that entry
    as they were. *)
Lemma copy_items_blocked items item copied_items w d :
  Forall (λ n, valid_name n = true) items → item ∈ items →
  fs w !! (R ++ [item]) = Some Dir →
  fs w !! (D ++ [item]) = Some (File d) →
  ∃ e w', copy_items cwd home items copied_items w = (inl e, w') ∧
          agree_on (item_region R D item) (fs w) (fs w').
Proof.
  intros Hall. revert copied_items w.
  induction Hall as [|i rest Hi Hrest IH]; intros copied_items w Hin Hsrc Hdst.
  { by apply elem_of_nil in Hin. }
  cbn [copy_items]. rewrite bind_run.
  destruct (decide (item = i)) as [->|Hne].
  { rewrite (copy_item_blocked i w d) by done.
    exists NotADirectoryError, w. split; [done|reflexivity]. }
  apply elem_of_cons in Hin as [?|Hin]; [done|].
  destruct (copy_item cwd home i w) as [[e|line] w1] eqn:Hstep.
  - exists e, w1. split; [done|].
    eapply agree_on_weaken; [|by eapply copy_item_frame].
    intros p Hp. by eapply item_region_outside.
  - assert (agree_on (item_region R D item) (fs w) (fs w1)) as Hagree.
    { eapply agree_on_weaken; [|by eapply copy_item_frame].
      intros p Hp. by eapply item_region_outside. }
    destruct (IH (copied_items ++ [line]) w1 Hin) as (e & w' & Hloop & Hpost).
    + rewrite Hagree; [done|]. by left.
    + rewrite Hagree; [done|]. by right.
    + exists e, w'. split; [done|]. by transitivity (fs w1).
Qed.

Lemma children_makedirs f0 w :
  makedirs true D (fs w) = inr f0 →
  ∀ n, f0 !! (R ++ [n]) = fs w !! (R ++ [n]).
Proof.
  intros Hm n. apply (makedirs_agree _ _ _ _ Hm).
  intros Hp. by apply prefix_app_l in Hp.
Qed.

Lemma install_directory_copied (w w' : World) (item : string) :
  isdir (fs w) R = true →
  (∀ n, is_Some (fs w !! (R ++ [n])) → valid_name n = true) →
  fs w !! (R ++ [item]) = Some Dir →
  copy_to_logic_pro cwd home w = (inr (), w') →
  ∀ s n, fs w !! (R ++ item :: s) = Some n → fs w' !! (D ++ item :: s) = Some n.
Proof.
  intros HR Hnames Hsrc Hrun s n Hs.
  destruct (install_round w w' item HR Hnames) as (w0 & line & w1 & Hround & Hpre & Hpost);
    [eauto|done|].
  assert (∀ x, item_region R D item (R ++ item :: x)) as Hsrc_in.
  { intros x. left. rewrite (cons_middle item R x), app_assoc. by apply prefix_app_r. }
  assert (∀ x, item_region R D item (D ++ item :: x)) as Hdst_in.
  { intros x. right. rewrite (cons_middle item D x), app_assoc. by apply prefix_app_r. }
  rewrite Hpost by done.
  eapply copy_item_copies; [by apply Hnames; eauto| |done|].
  - rewrite (Hpre (R ++ [item])); [done|]. by left.
  - by rewrite Hpre.
Qed.

(** X5: with the two roots apart, the output root a directory and its
    entries properly named: after a run of [copy_to_logic_pro] that
    returns, every node that the output root holds at or below an entry
    that is a directory is found, the same, at the same place under the
    destination root, whether or not the destination had such an entry
    before. *)
Theorem install_copies_directory (w w' : World) (item : string) :
  isdir (fs w) R = true →
  (∀ n, is_Some (fs w !! (R ++ [n])) → valid_name n = true) →
  fs w !! (R ++ [item]) = Some Dir →
  copy_to_logic_pro cwd home w = (inr (), w') →
  ∀ s n, fs w !! (R ++ item :: s) = Some n → fs w' !! (D ++ item :: s) = Some n.
Proof. apply install_directory_copied. Qed.



(** X7: with the two roots apart (neither at or below the other), the
    output root a directory and its entries properly named: when the
    output root has a directory whose name belongs to a regular file in
    the destination root, [copy_to_logic_pro] does not return: an
    exception leaves it, and that regular file is still in place
    afterwards. *)
Theorem install_blocked_by_file (w : World) (item : string) (d : bytes) :
  isdir (fs w) R = true →
  (∀ n, is_Some (fs w !! (R ++ [n])) → valid_name n = true) →
  fs w !! (R ++ [item]) = Some Dir →
  fs w !! (D ++ [item]) = Some (File d) →
  ∃ e w', copy_to_logic_pro cwd home w = (inl e, w') ∧
          fs w' !! (D ++ [item]) = Some (File d).
Proof.
  intros HR%isdir_true Hnames Hsrc Hdst.
  assert (item_region R D item (D ++ [item])) as Hd by (by right).
  unfold copy_to_logic_pro. rewrite bind_run. unfold os_path_exists.
  change (resolve cwd ROOT_PATH) with R.
  assert (exists_ (fs w) R = true) as -> by (apply exists_true; eauto).
  cbv beta iota. cbn [negb].
  rewrite bind_run. unfold os_makedirs, lift_fs at 1.
  change (resolve cwd (LOGIC_PRO_PATH home)) with D.
  destruct (makedirs true D (fs w)) as [e|f0] eqn:Hm; [by eauto|].
  pose proof (makedirs_agree _ _ _ _ Hm) as Hframe.
  cbv beta iota. rewrite bind_run. unfold os_listdir, listdir.
  change (resolve cwd ROOT_PATH) with R. cbn [fs set_fs].
  assert (stat f0 R = Some Dir) as ->.
  { rewrite stat_nonempty in * by apply source_root_nonempty.
    apply makedirs_spec in Hm as [Hm _].
    destruct (Hm R) as [->|[? _]]; congruence. }
  cbv beta iota. rewrite bind_run.
  destruct (copy_items_blocked (children f0 R) item [] (set_fs f0 w) d)
    as (e & w' & -> & Hpost); cbn [fs set_fs].
  - apply Forall_forall. intros n Hn%elem_of_children.
    apply Hnames. by rewrite <- (children_makedirs f0 w).
  - apply elem_of_children. rewrite (children_makedirs f0 w) by done. eauto.
  - by rewrite (children_makedirs f0 w).
  - rewrite Hframe; [done|]. by apply item_region_off_way with item.
  - exists e, w'. split; [done|]. rewrite Hpost by done.
    cbn [fs set_fs]. rewrite Hframe; [done|]. by apply item_region_off_way with item.
Qed.






Lemma silent_lift_fs op : silent (lift_fs op).
Proof.
  intros w r w'. unfold lift_fs. by destruct (op (fs w)); intros [= _ <-].
Qed.






End InstallerRounds.

(** ** Concrete runs of the installer *)

Lemma sample_roots_apart :
  ¬ source_root ["work"] `prefix_of` destination_root ["work"] "/home/u" ∧
  ¬ destination_root ["work"] "/home/u" `prefix_of` source_root ["work"].
Proof. split; intros [k Hk]; vm_compute in Hk; discriminate Hk. Qed.

Ltac sample_entries :=
  let n := fresh "n" in
  let Hn := fresh "Hn" in
  intros n Hn; apply FSFacts.elem_of_children in Hn; vm_compute in Hn;
  repeat (apply elem_of_cons in Hn as [->|Hn]; [reflexivity|]);
  by apply elem_of_nil in Hn.


Lemma fresh_entries n :
  is_Some (fs fresh_world !! (source_root ["work"] ++ [n])) →
  PosixPath.valid_name n = true.
Proof. revert n. sample_entries. Qed.


Lemma blocked_entries n :
  is_Some (fs blocked_world !! (source_root ["work"] ++ [n])) →
  PosixPath.valid_name n = true.
Proof. revert n. sample_entries. Qed.


Lemma fresh_run :
  copy_to_logic_pro ["work"] "/home/u" fresh_world = (inr (), fresh_installed).
Proof.
  unfold fresh_installed.
  apply (returned_state (copy_to_logic_pro ["work"] "/home/u" fresh_world) ()).
  vm_compute. reflexivity.
Qed.


Lemma install_copies_directory_witness :
  fs fresh_installed
    !! (destination_root ["work"] "/home/u" ++ ["Musio"; "Violin.plist"])
  = Some (File "new").
Proof.
  destruct sample_roots_apart as [HRD HDR].
  apply (install_copies_directory ["work"] "/home/u" HRD HDR fresh_world fresh_installed
           "Musio" ltac:(vm_compute; reflexivity) fresh_entries
           ltac:(vm_compute; reflexivity) fresh_run ["Violin.plist"] (File "new")).
  vm_compute. reflexivity.
Defined.


Lemma install_blocked_by_file_witness :
  ∃ e w', copy_to_logic_pro ["work"] "/home/u" blocked_world = (inl e, w') ∧
          fs w' !! (destination_root ["work"] "/home/u" ++ ["Musio"])
          = Some (File "not a folder").
Proof.
  destruct sample_roots_apart as [HRD HDR].
  apply (install_blocked_by_file ["work"] "/home/u" HRD HDR blocked_world "Musio"
           "not a folder" ltac:(vm_compute; reflexivity) blocked_entries
           ltac:(vm_compute; reflexivity) ltac:(vm_compute; reflexivity)).
Defined.



(** What the report of that run reads. *)
Example installed_world_report :
  ∃ items,
    items ≡ₚ ["Musio"; "Top.plist"] ∧
    stdout installed_world
    = (newline +:+ "Copied to Logic Pro location ("
       +:+ "/home/u/Music/Audio Music Apps/Articulation Settings):")
      :: (String.append "  "
          <$> (copied_line (source_root ["work"]) (fs stale_world) <$> items)) ∧
    copied_line (source_root ["work"]) (fs stale_world) "Musio" = "Directory: Musio" ∧
    copied_line (source_root ["work"]) (fs stale_world) "Top.plist" = "File: Top.plist".
Proof.
  exists (FS.children (fs stale_world) (source_root ["work"])).
  split_and!; [|vm_compute; reflexivity..].
  vm_compute. apply Permutation_swap.
Qed.

(** * More about path strings *)

Module PosixPathSplit.
Import PosixPath PosixPathFacts.

Lemma append_nil_r a : a +:+ "" = a.
Proof.
  induction a as [|x a IH]; [done|].
  change (String x (a +:+ "") = String x a). by rewrite IH.
Qed.

Lemma append_assoc a b c : (a +:+ b) +:+ c = a +:+ (b +:+ c).
Proof.
  induction a as [|x a IH]; [done|].
  change (String x ((a +:+ b) +:+ c) = String x (a +:+ (b +:+ c))). by rewrite IH.
Qed.

(** A string with a separator splits at its last separator. *)
Lemma rfind_split p :
  0 ≤ rfind sep p →
  ∃ h b, p = h +:+ String sep b ∧ rfind sep b < 0 ∧
         rfind sep p = Z.of_nat (String.length h).
Proof.
  induction p as [|a p IH]; [simpl; lia|].
  intros Hp. change (rfind sep (String a p))
    with (let r := rfind sep p in
          if 0 <=? r then r + 1 else if Ascii.eqb a sep then 0 else -1) in *.
  cbv zeta in *. destruct (0 <=? rfind sep p) eqn:Hr.
  - apply Z.leb_le in Hr. destruct (IH Hr) as (h & b & -> & Hb & Hlen).
    exists (String a h), b. split_and!; [done|done|].
    rewrite Hlen. simpl String.length. lia.
  - apply Z.leb_gt in Hr. destruct (Ascii.eqb a sep) eqn:Ha; [|lia].
    apply Ascii.eqb_eq in Ha as ->. exists "", p. by split_and!.
Qed.

Lemma take_append a b : take (String.length a) (a +:+ b) = a.
Proof.
  induction a as [|x a IH]; [by destruct b|].
  change (String x (take (String.length a) (a +:+ b)) = String x a). by rewrite IH.
Qed.

Lemma all_sep_append a b : all_sep (a +:+ b) = all_sep a && all_sep b.
Proof.
  induction a as [|x a IH]; [done|].
  change (all_sep (String x a +:+ b)) with (Ascii.eqb x sep && all_sep (a +:+ b)).
  rewrite IH. simpl. by rewrite andb_assoc.
Qed.

Lemma rstrip_sep_append_sep h : rstrip_sep (h +:+ String sep "") = rstrip_sep h.
Proof.
  induction h as [|x h IH]; [done|].
  change (rstrip_sep (String x h +:+ String sep ""))
    with (if all_sep (String x (h +:+ String sep "")) then ""
          else String x (rstrip_sep (h +:+ String sep ""))).
  change (rstrip_sep (String x h))
    with (if all_sep (String x h) then "" else String x (rstrip_sep h)).
  rewrite IH.
  assert (all_sep (String x (h +:+ String sep "")) = all_sep (String x h)) as ->; [|done].
  change (Ascii.eqb x sep && all_sep (h +:+ String sep "")
          = Ascii.eqb x sep && all_sep h).
  rewrite all_sep_append. change (all_sep (String sep "")) with true.
  by rewrite andb_true_r.
Qed.

(** What [rstrip] removes is a run of separators. *)
Lemma rstrip_sep_split h : ∃ t, h = rstrip_sep h +:+ t ∧ all_sep t = true.
Proof.
  induction h as [|x h (t & IH & Ht)]; [by exists ""|].
  change (rstrip_sep (String x h))
    with (if all_sep (String x h) then "" else String x (rstrip_sep h)).
  destruct (all_sep (String x h)) eqn:Hall.
  - by exists (String x h).
  - exists t. split; [|done].
    change (String x h = String x (rstrip_sep h +:+ t)). by rewrite <- IH.
Qed.

Lemma rstrip_sep_first h :
  all_sep h = false → startswith_sep (rstrip_sep h) = startswith_sep h.
Proof.
  destruct h as [|x h]; [done|]. intros Hall.
  change (rstrip_sep (String x h))
    with (if all_sep (String x h) then "" else String x (rstrip_sep h)).
  by rewrite Hall.
Qed.

Lemma components_all_sep t :
  all_sep t = true → Forall (λ c, c = "") (components t).
Proof.
  induction t as [|x t IH]; [by repeat constructor|].
  simpl. intros [Hx Ht]%andb_true_iff. rewrite Hx. constructor; [done|by apply IH].
Qed.

Lemma basename_absent p : rfind sep p < 0 → basename p = p.
Proof.
  intros Hp. unfold basename. pose proof (rfind_lower sep p).
  by replace (rfind sep p + 1) with 0 by lia.
Qed.

Lemma dirname_absent p : rfind sep p < 0 → dirname p = "".
Proof.
  intros Hp. unfold dirname. pose proof (rfind_lower sep p).
  replace (rfind sep p + 1) with 0 by lia. by destruct p.
Qed.

Lemma dirname_append_sep h b :
  rfind sep b < 0 →
  dirname (h +:+ String sep b)
  = if all_sep h then h +:+ String sep "" else rstrip_sep h.
Proof.
  intros Hb. unfold dirname. rewrite rfind_append_sep by done.
  replace (Z.to_nat (Z.of_nat (String.length h) + 1))
    with (String.length (h +:+ String sep "")).
  - replace (h +:+ String sep b) with ((h +:+ String sep "") +:+ b)
      by (by rewrite append_assoc).
    rewrite take_append, all_sep_append. change (all_sep (String sep "")) with true.
    rewrite !andb_true_r.
    rewrite rstrip_sep_append_sep.
    destruct (all_sep h); [by rewrite andb_false_r|].
    rewrite andb_true_r.
    destruct (String.eqb (h +:+ String sep "") "") eqn:Heq; [|done].
    apply String.eqb_eq in Heq. by apply append_empty in Heq as [_ ?].
  - clear. induction h as [|x h IH]; [done|].
    change (S (String.length (h +:+ String sep ""))
            = Z.to_nat (Z.of_nat (S (String.length h)) + 1)).
    rewrite IH. lia.
Qed.

End PosixPathSplit.

Section Resolve.

Variable cwd : path.

Import PosixPath PosixPathFacts PosixPathSplit.

Lemma resolve_step_empty acc : resolve_step acc "" = acc.
Proof. unfold resolve_step. by rewrite decide_True by (by left). Qed.

Lemma fold_resolve_empties l base :
  Forall (λ c, c = "") l → fold_left resolve_step l base = base.
Proof.
  intros Hl. revert base. induction Hl as [|c l -> _ IH]; intros base; [done|].
  simpl. by rewrite resolve_step_empty.
Qed.

Lemma fold_resolve_trailing x t base :
  all_sep t = true →
  fold_left resolve_step (components (x +:+ t)) base
  = fold_left resolve_step (components x) base.
Proof.
  destruct t as [|a t]; [by rewrite append_nil_r|].
  simpl. intros [->%Ascii.eqb_eq Ht]%andb_true_iff.
  rewrite components_append_sep, fold_left_app.
  by apply fold_resolve_empties, components_all_sep.
Qed.

Lemma startswith_sep_append_sep h x :
  startswith_sep (h +:+ String sep x) = startswith_sep (h +:+ String sep "").
Proof. by destruct h. Qed.

(** Resolving a path with a separator is resolving its directory name
    and then taking one step with its base name. *)
Lemma resolve_split p :
  0 ≤ rfind sep p →
  resolve cwd p = resolve_step (resolve cwd (dirname p)) (basename p).
Proof.
  intros (h & b & -> & Hb & _)%rfind_split.
  rewrite basename_append_sep, dirname_append_sep by done.
  unfold resolve at 1. rewrite components_append_sep, (components_absent b) by done.
  rewrite fold_left_app. cbn [fold_left]. f_equal.
  rewrite startswith_sep_append_sep.
  destruct (all_sep h) eqn:Hall.
  - unfold resolve. rewrite components_append_sep, fold_left_app.
    cbn [components fold_left]. by rewrite resolve_step_empty.
  - assert (h ≠ "") as Hne by (by intros ->).
    unfold resolve. rewrite rstrip_sep_first, startswith_sep_append by done.
    destruct (rstrip_sep_split h) as (t & Heq & Ht).
    rewrite Heq at 1. by rewrite fold_resolve_trailing.
Qed.

Lemma resolve_dirname_basename p :
  valid_name (basename p) = true →
  resolve cwd p = resolve cwd (dirname p) ++ [basename p].
Proof.
  intros Hb. destruct (decide (0 ≤ rfind sep p)) as [Hp|Hp].
  - rewrite resolve_split by done. by apply resolve_step_name.
  - rewrite basename_absent in * by lia. rewrite dirname_absent by lia.
    apply valid_name_spec in Hb as Hb'. destruct Hb' as (Hne & _ & _ & _).
    unfold resolve. rewrite components_absent by lia.
    destruct p as [|x p]; [done|].
    assert (startswith_sep (String x p) = false) as ->.
    { simpl. apply Ascii.eqb_neq. intros ->.
      assert (rfind sep (String sep p) < 0) as [? _]%rfind_cons_absent by lia. done. }
    cbn [fold_left components startswith_sep]. rewrite resolve_step_empty.
    by apply resolve_step_name.
Qed.

End Resolve.

(** * More about the generator *)

Section GeneratorOutcome.

Variable cwd : path.
Variable plistlib_dump : plist → bytes * option exn.

Import PosixPath PosixPathFacts FS FSFacts.

Lemma omap_entry_pair_imap (g : Z → string) (f : nat → Z → plist) (l : list Z) :
  (∀ i k, entry_pair (f i k) = Some (k, g k)) →
  omap entry_pair (imap f l) = (λ k, (k, g k)) <$> l.
Proof.
  revert f. induction l as [|k l IH]; intros f Hf; [done|].
  cbn [imap omap list_omap fmap list_fmap]. rewrite Hf. f_equal.
  apply IH. intros i k'. apply Hf.
Qed.

(** X1: the document keeps the whole mapping: for every mapping the
    builder returns a document from whose records, read back as pairs of
    note and name, the mapping is recovered exactly.  So two mappings
    that give the same document are the same mapping. *)
Theorem document_keeps_mapping (m : mapping) (name output_path : string) :
  ∃ doc, build_document m name output_path = inr doc ∧ mapping_of doc = m.
Proof.
  rewrite build_document_eq. eexists. split; [done|].
  unfold mapping_of. rewrite entries_plist_data.
  rewrite (omap_entry_pair_imap (λ k, m !!! k)) by done.
  assert (((λ k, (k, m !!! k)) <$> sorted_keys m).*1 = sorted_keys m) as Hfst.
  { induction (sorted_keys m) as [|k l IH]; [done|]. cbn. by rewrite IH. }
  apply map_eq. intros k. destruct (m !! k) as [v|] eqn:Hk.
  - apply elem_of_list_to_map_1.
    + rewrite Hfst. apply sorted_keys_NoDup.
    + apply list_elem_of_fmap. exists k. split.
      * by rewrite (lookup_total_correct _ _ _ Hk).
      * apply sorted_keys_elem. eauto.
  - apply not_elem_of_list_to_map_1.
    rewrite Hfst. intros [v Hv]%sorted_keys_elem. congruence.
Qed.

Lemma generate_articulation_set_result (m : mapping) (name output_path : string)
    (w w' : World) (result : string) :
  generate_articulation_set cwd plistlib_dump m name output_path w = (inr result, w') →
  ∃ doc,
    build_document m name output_path = inr doc ∧
    result = output_path ∧
    fs w' !! resolve cwd output_path = Some (File (plistlib_dump doc).1) ∧
    stdout w' = stdout w ++ progress_lines output_path (size m) ∧
    stderr w' = stderr w.
Proof.
  destruct (generate_articulation_set_document cwd plistlib_dump m name output_path)
    as (articulations & Hdoc & ->).
  intros (-> & Hfile & Hout & Herr)%emit_document_returns.
  eexists. split_and!; [done|done|done| |done].
  rewrite Hout. unfold progress_lines. do 4 f_equal.
  rewrite build_document_eq in Hdoc. injection Hdoc as Hdoc.
  by rewrite <- Hdoc, length_imap, sorted_keys_length.
Qed.

(** X2: whenever [generate_articulation_set] returns, it returns the
    output path; the file at that path holds the bytes that
    [plistlib.dump] wrote for the document built from the mapping; the
    standard output has three more lines, the last of which gives the
    number of keys of the mapping; and nothing went to the error
    stream. *)
Theorem generate_articulation_set_returns (m : mapping) (name output_path : string)
    (w w' : World) (result : string) :
  generate_articulation_set cwd plistlib_dump m name output_path w = (inr result, w') →
  ∃ doc,
    build_document m name output_path = inr doc ∧
    result = output_path ∧
    fs w' !! resolve cwd output_path = Some (File (plistlib_dump doc).1) ∧
    stdout w' = stdout w ++ progress_lines output_path (size m) ∧
    stderr w' = stderr w.
Proof. apply generate_articulation_set_result. Qed.

(** The states that [emit_document] can end in: the missing parent
    directories may have been made, and then the file may have been
    written. *)
Lemma emit_document_states (output_path : string) (articulations : list plist) w r w' :
  emit_document cwd plistlib_dump output_path articulations w = (r, w') →
  ∃ f1,
    (f1 = fs w ∨ makedirs true (resolve cwd (dirname output_path)) (fs w) = inr f1) ∧
    (fs w' = f1 ∨ ∃ data, fs w' = <[resolve cwd output_path := File data]> f1).
Proof.
  unfold emit_document. cbv zeta. rewrite bind_run.
  destruct ((if negb (String.eqb (dirname output_path) "")
             then os_makedirs cwd (dirname output_path) true
             else ret ()) w) as [[e|[]] w1] eqn:Hdirs.
  { intros [= _ <-]. exists (fs w). split; [by left|]. left.
    destruct (negb _); [|done]. unfold os_makedirs, lift_fs in Hdirs.
    destruct (makedirs _ _ _); by simplify_eq. }
  assert (fs w1 = fs w ∨
          makedirs true (resolve cwd (dirname output_path)) (fs w) = inr (fs w1))
    as Hf1.
  { destruct (negb _); [|left; by injection Hdirs as <-].
    unfold os_makedirs, lift_fs in Hdirs.
    destruct (makedirs _ _ _) as [e|f1]; [done|]. right. by simplify_eq. }
  intros Hrest. exists (fs w1). split; [done|].
  revert Hrest. rewrite bind_run. unfold dump_to_file.
  destruct (plistlib_dump _) as [data err].
  rewrite bind_run. unfold lift_fs.
  destruct (write_file (resolve cwd output_path) data (fs w1)) as [e|f2] eqn:Hwrite.
  { intros [= _ <-]. by left. }
  assert (f2 = <[resolve cwd output_path := File data]> (fs w1)) as ->.
  { unfold write_file in Hwrite.
    destruct (resolve cwd output_path) as [|c l]; [done|].
    destruct (stat (fs w1) (removelast (c :: l))) as [[|?]|]; try done.
    destruct (stat (fs w1) (c :: l)) as [[|?]|]; try done; by injection Hwrite as <-. }
  destruct err as [e|].
  - intros [= _ <-]. right. eauto.
  - unfold ret at 1. unfold print, ret, bind. intros [= _ <-]. right. eauto.
Qed.


Lemma write_file_snoc (parent : path) (b : string) (data : bytes) f :
  stat f parent = Some Dir → stat f (parent ++ [b]) ≠ Some Dir →
  write_file (parent ++ [b]) data f = inr (<[parent ++ [b] := File data]> f).
Proof.
  intros Hparent Htarget. unfold write_file.
  destruct (parent ++ [b]) as [|c l] eqn:Heq; [by destruct parent|].
  rewrite <- Heq, removelast_last, Hparent.
  destruct (stat f (parent ++ [b])) as [[|?]|] eqn:Hs; [congruence|done..].
Qed.

Lemma generate_articulation_set_run (m : mapping) (name output_path : string)
    (w : World) :
  valid_name (basename output_path) = true →
  (∀ q d, q `prefix_of` resolve cwd (dirname output_path) → fs w !! q ≠ Some (File d)) →
  (dirname output_path = "" → stat (fs w) (resolve cwd (dirname output_path)) = Some Dir) →
  fs w !! resolve cwd output_path ≠ Some Dir →
  ∃ doc data err w',
    build_document m name output_path = inr doc ∧
    plistlib_dump doc = (data, err) ∧
    generate_articulation_set cwd plistlib_dump m name output_path w
    = (match err with Some e => inl e | None => inr output_path end, w') ∧
    fs w' !! resolve cwd output_path = Some (File data) ∧
    (∀ q, q ≠ resolve cwd output_path →
          fs w' !! q = fs w !! q ∨
          (fs w !! q = None ∧ fs w' !! q = Some Dir ∧
           q `prefix_of` resolve cwd (dirname output_path))) ∧
    stdout w' = stdout w ++ match err with
                            | Some _ => []
                            | None => progress_lines output_path (size m)
                            end ∧
    stderr w' = stderr w.
Proof.
  intros Hbase Hfree Hcwd Htarget.
  pose proof (resolve_dirname_basename cwd output_path Hbase) as Hsplit.
  set (parent := resolve cwd (dirname output_path)) in *.
  set (target := resolve cwd output_path) in *.
  destruct (generate_articulation_set_document cwd plistlib_dump m name output_path)
    as (articulations & Hdoc & ->).
  assert (length articulations = size m) as Hlen.
  { pose proof Hdoc as Hdoc'. rewrite build_document_eq in Hdoc'.
    injection Hdoc' as Hdoc'.
    by rewrite <- Hdoc', length_imap, sorted_keys_length. }
  destruct (plistlib_dump (plist_data articulations (basename output_path)))
    as [data err] eqn:Hdump.
  assert (∃ w1,
            (if negb (String.eqb (dirname output_path) "")
             then os_makedirs cwd (dirname output_path) true
             else ret ()) w = (inr (), w1) ∧
            stat (fs w1) parent = Some Dir ∧
            (∀ q, fs w1 !! q = fs w !! q ∨
                  (fs w !! q = None ∧ fs w1 !! q = Some Dir ∧ q `prefix_of` parent)) ∧
            stdout w1 = stdout w ∧ stderr w1 = stderr w)
    as (w1 & Hdirs & Hparent & Hspec & Hout & Herr).
  { destruct (String.eqb (dirname output_path) "") eqn:Hd; cbn [negb].
    - apply String.eqb_eq in Hd. exists w. split_and!; [done|by apply Hcwd| |done..].
      intros q. by left.
    - unfold os_makedirs, lift_fs. fold parent.
      destruct (makedirs_succeeds parent (fs w) Hfree) as [f1 Hm]. rewrite Hm.
      apply makedirs_spec in Hm as [Hm1 Hm2].
      exists (set_fs f1 w). by split_and!. }
  assert (stat (fs w1) (parent ++ [basename output_path]) ≠ Some Dir) as Hnotdir.
  { rewrite stat_snoc. rewrite <- Hsplit.
    destruct (Hspec target) as [->|(_ & _ & Hp)]; [done|].
    rewrite Hsplit in Hp. by apply prefix_snoc_not in Hp. }
  pose proof (write_file_snoc parent (basename output_path) data (fs w1)
                Hparent Hnotdir) as Hwrite.
  rewrite <- Hsplit in Hwrite.
  exists (plist_data articulations (basename output_path)), data, err.
  assert (∀ q, q ≠ target →
            <[target := File data]> (fs w1) !! q = fs w !! q ∨
            (fs w !! q = None ∧ <[target := File data]> (fs w1) !! q = Some Dir ∧
             q `prefix_of` parent)) as Hothers.
  { intros q Hq. rewrite lookup_insert_ne by done. apply Hspec. }
  unfold emit_document. cbv zeta. rewrite bind_run, Hdirs. cbv beta iota.
  rewrite bind_run. unfold dump_to_file. rewrite Hdump.
  rewrite bind_run. unfold lift_fs. fold target. rewrite Hwrite. cbv beta iota.
  destruct err as [e|].
  - exists (set_fs (<[target := File data]> (fs w1)) w1).
    cbn [fs set_fs stdout stderr]. rewrite app_nil_r.
    split_and!; [done|done|done|by rewrite lookup_insert_eq|done|done|done].
  - unfold ret at 1. unfold print, ret, bind. cbn [fs set_fs stdout stderr].
    eexists. split_and!; [done|done|done| | | |]; cbn [fs stdout stderr].
    + by rewrite lookup_insert_eq.
    + done.
    + unfold progress_lines. by rewrite <- !app_assoc, Hout, Hlen.
    + done.
Qed.

(** X3: let no component of the output path be [..], let its base name
    be a proper file name, let no regular file stand on the way to its
    directory (which must exist already when the path has no directory
    part), and let the path itself not be a directory.  Then
    [generate_articulation_set] gets as
    far as [plistlib.dump]: the file holds the bytes that the dump
    wrote; every other path is as before, except that missing
    directories on the way now exist; and the call returns the output
    path after printing its three lines if the dump returned, and
    raises the dump's exception, having printed nothing, if the dump
    raised. *)
Theorem generate_articulation_set_outcome (m : mapping) (name output_path : string)
    (w : World) :
  descending output_path →
  valid_name (basename output_path) = true →
  (∀ q d, q `prefix_of` resolve cwd (dirname output_path) → fs w !! q ≠ Some (File d)) →
  (dirname output_path = "" → stat (fs w) (resolve cwd (dirname output_path)) = Some Dir) →
  fs w !! resolve cwd output_path ≠ Some Dir →
  ∃ doc data err w',
    build_document m name output_path = inr doc ∧
    plistlib_dump doc = (data, err) ∧
    generate_articulation_set cwd plistlib_dump m name output_path w
    = (match err with Some e => inl e | None => inr output_path end, w') ∧
    fs w' !! resolve cwd output_path = Some (File data) ∧
    (∀ q, q ≠ resolve cwd output_path →
          fs w' !! q = fs w !! q ∨
          (fs w !! q = None ∧ fs w' !! q = Some Dir ∧
           q `prefix_of` resolve cwd (dirname output_path))) ∧
    stdout w' = stdout w ++ match err with
                            | Some _ => []
                            | None => progress_lines output_path (size m)
                            end ∧
    stderr w' = stderr w.
Proof. intros _. apply generate_articulation_set_run. Qed.

Lemma generate_articulation_set_frame (m : mapping) (name output_path : string)
    (w : World) (r : exn + string) (w' : World) :
  generate_articulation_set cwd plistlib_dump m name output_path w = (r, w') →
  ∀ q, q ≠ resolve cwd output_path →
       fs w' !! q = fs w !! q ∨
       (fs w !! q = None ∧ fs w' !! q = Some Dir ∧
        q `prefix_of` resolve cwd (dirname output_path)).
Proof.
  destruct (generate_articulation_set_document cwd plistlib_dump m name output_path)
    as (articulations & _ & ->).
  intros (f1 & Hf1 & Hw')%emit_document_states q Hq.
  assert (fs w' !! q = f1 !! q) as ->.
  { destruct Hw' as [->|[data ->]]; [done|]. by rewrite lookup_insert_ne. }
  destruct Hf1 as [->|Hm]; [by left|].
  apply makedirs_spec in Hm as [Hm _]. apply Hm.
Qed.

(** X4: for an output path none of whose components is [..]: however
    [generate_articulation_set] ends, it has changed no path but its
    output path, except that directories missing on the way to the
    directory of the output path may now exist: no other file is
    written, and nothing is removed. *)
Theorem generate_articulation_set_only_creates (m : mapping) (name output_path : string)
    (w : World) (r : exn + string) (w' : World) :
  descending output_path →
  generate_articulation_set cwd plistlib_dump m name output_path w = (r, w') →
  ∀ q, q ≠ resolve cwd output_path →
       fs w' !! q = fs w !! q ∨
       (fs w !! q = None ∧ fs w' !! q = Some Dir ∧
        q `prefix_of` resolve cwd (dirname output_path)).
Proof. intros _. apply generate_articulation_set_frame. Qed.

End GeneratorOutcome.

(** ** Concrete runs of the generator *)

Lemma generate_articulation_set_returns_witness :
  ∃ doc,
    build_document scenario_mapping "Test" "output/Test.plist" = inr doc ∧
    "output/Test.plist" = "output/Test.plist" ∧
    fs generated_world !! resolve ["work"] "output/Test.plist"
    = Some (File (name_dump doc).1) ∧
    stdout generated_world
    = stdout (mkWorld ∅ [] []) ++ progress_lines "output/Test.plist" (size scenario_mapping) ∧
    stderr generated_world = stderr (mkWorld ∅ [] []).
Proof.
  apply (generate_articulation_set_returns ["work"] name_dump scenario_mapping "Test"
           "output/Test.plist" (mkWorld ∅ [] []) generated_world).
  unfold generated_world.
  apply (returned_state
           (generate_articulation_set ["work"] name_dump scenario_mapping "Test"
              "output/Test.plist" (mkWorld ∅ [] [])) "output/Test.plist").
  vm_compute. reflexivity.
Defined.

Lemma generate_articulation_set_outcome_witness :
  ∃ doc data err w',
    build_document scenario_mapping "Test" "output/Test.plist" = inr doc ∧
    failing_dump doc = (data, err) ∧
    generate_articulation_set ["work"] failing_dump scenario_mapping "Test"
      "output/Test.plist" (mkWorld ∅ [] [])
    = (match err with Some e => inl e | None => inr "output/Test.plist" end, w') ∧
    fs w' !! resolve ["work"] "output/Test.plist" = Some (File data) ∧
    (∀ q, q ≠ resolve ["work"] "output/Test.plist" →
          fs w' !! q = fs (mkWorld ∅ [] []) !! q ∨
          (fs (mkWorld ∅ [] []) !! q = None ∧ fs w' !! q = Some Dir ∧
           q `prefix_of` resolve ["work"] (PosixPath.dirname "output/Test.plist"))) ∧
    stdout w' = stdout (mkWorld ∅ [] [])
                ++ match err with
                   | Some _ => []
                   | None => progress_lines "output/Test.plist" (size scenario_mapping)
                   end ∧
    stderr w' = stderr (mkWorld ∅ [] []).
Proof.
  apply (generate_articulation_set_outcome ["work"] failing_dump scenario_mapping "Test"
           "output/Test.plist" (mkWorld ∅ [] [])).
  - unfold descending. vm_compute. by repeat constructor.
  - reflexivity.
  - intros q d _. cbn [fs]. by rewrite lookup_empty.
  - intros Hd. vm_compute in Hd. discriminate Hd.
  - cbn [fs]. by rewrite lookup_empty.
Defined.

(** The run with the failing dump: the exception of the dump comes out,
    the truncated file stays behind, nothing is printed. *)
Example failing_dump_run :
  let r := generate_articulation_set ["work"] failing_dump scenario_mapping "Test"
             "output/Test.plist" (mkWorld ∅ [] []) in
  r.1 = inl (OtherError "OverflowError") ∧
  fs r.2 !! ["work"; "output"; "Test.plist"] = Some (File "<?xml") ∧
  stdout r.2 = [].
Proof. vm_compute. by split_and!. Qed.

Lemma generate_articulation_set_only_creates_witness :
  fs generated_world !! ["work"; "other.plist"]
  = fs (mkWorld ∅ [] []) !! ["work"; "other.plist"] ∨
  (fs (mkWorld ∅ [] []) !! ["work"; "other.plist"] = None ∧
   fs generated_world !! ["work"; "other.plist"] = Some Dir ∧
   ["work"; "other.plist"]
     `prefix_of` resolve ["work"] (PosixPath.dirname "output/Test.plist")).
Proof.
  apply (generate_articulation_set_only_creates ["work"] name_dump scenario_mapping "Test"
           "output/Test.plist" (mkWorld ∅ [] [])
           (generate_articulation_set ["work"] name_dump scenario_mapping "Test"
              "output/Test.plist" (mkWorld ∅ [] [])).1 generated_world).
  - unfold descending. vm_compute. by repeat constructor.
  - apply surjective_pairing.
  - intros Hq. vm_compute in Hq. discriminate Hq.
Defined.

(** * The generation phase of the script *)

Section Generation.

Variable cwd : path.
Variable plistlib_dump : plist → bytes * option exn.

Import PosixPath PosixPathFacts FS FSFacts.

Local Abbreviation R := (source_root cwd).

(** What exists after a loop existed before or is accounted for by one
    of the rounds. *)
Lemma for_each_created {A : Type} (P : A → path → Prop) (body : A → M ()) (l : list A) :
  (∀ x w r w', body x w = (r, w') →
               ∀ q, is_Some (fs w' !! q) → is_Some (fs w !! q) ∨ P x q) →
  ∀ w r w', for_each l body w = (r, w') →
            ∀ q, is_Some (fs w' !! q) → is_Some (fs w !! q) ∨ ∃ x, x ∈ l ∧ P x q.
Proof.
  intros Hbody. induction l as [|x l IH]; intros w r w'; simpl.
  { intros [= _ <-] q Hq. by left. }
  rewrite bind_run. destruct (body x w) as [[e|[]] w1] eqn:Hx.
  - intros [= _ <-] q Hq. destruct (Hbody _ _ _ _ Hx q Hq) as [?|?]; [by left|].
    right. exists x. split; [left|done].
  - intros Hl q Hq. destruct (IH _ _ _ Hl q Hq) as [Hq1|(y & Hy & HP)].
    + destruct (Hbody _ _ _ _ Hx q Hq1) as [?|?]; [by left|].
      right. exists x. split; [left|done].
    + right. exists y. split; [by right|done].
Qed.

Lemma sorted_items_elem (table : gmap string mapping) entry :
  entry ∈ sorted_items table ↔ table !! entry.1 = Some entry.2.
Proof.
  unfold sorted_items. rewrite merge_sort_Permutation.
  destruct entry as [k m]. apply elem_of_map_to_list.
Qed.

(** Every node that exists after the generation loop existed before it
    or is the file of a table key or a directory on the way to one. *)
Lemma generate_all_created (table : gmap string mapping) w r w' :
  generate_all cwd plistlib_dump table w = (r, w') →
  ∀ q, is_Some (fs w' !! q) →
       is_Some (fs w !! q) ∨
       ∃ path_key, is_Some (table !! path_key) ∧
                   (q = target_of cwd path_key ∨ q `prefix_of` parent_of cwd path_key).
Proof.
  intros Hrun q Hq. unfold generate_all in Hrun.
  set (P := λ (entry : string * mapping) (q : path),
              q = target_of cwd entry.1 ∨ q `prefix_of` parent_of cwd entry.1).
  lazymatch type of Hrun with
  | for_each _ ?body _ = _ =>
      assert (∀ x w r w', body x w = (r, w') →
                ∀ q, is_Some (fs w' !! q) → is_Some (fs w !! q) ∨ P x q) as Hbody
  end.
  { intros entry w0 r0 w0'. cbv zeta. rewrite bind_run.
    destruct (generate_articulation_set _ _ _ _ _ w0) as [r1 w1] eqn:Hgen.
    intros Hret q0 Hq0.
    assert (w0' = w1) as -> by (by destruct r1; injection Hret as _ <-).
    destruct (decide (q0 = target_of cwd entry.1)) as [->|Hne]; [right; by left|].
    destruct (generate_articulation_set_frame _ _ _ _ _ _ _ _ Hgen q0 Hne)
      as [Heq|(_ & _ & Hp)].
    - left. by rewrite <- Heq.
    - right. by right. }
  destruct (for_each_created P _ _ Hbody _ _ _ Hrun q Hq) as [?|(entry & Hin & HP)];
    [by left|].
  right. exists entry.1. split; [|done].
  apply sorted_items_elem in Hin. eauto.
Qed.

(** X10: the generation phase of [main] starts from a clean output
    root.  Let the keys of the table be relative paths of proper names.
    If, in the initial state, nothing lies below a missing output root,
    then after a generation phase that returns every node at or below
    the output root is the file written for a key of the table or a
    directory on the way to such a file: nothing of an earlier run is
    left. *)
Theorem generation_leaves_nothing_stale (table : gmap string mapping) (w w' : World) :
  (∀ path_key, is_Some (table !! path_key) → relative_key path_key) →
  (exists_ (fs w) R = false → ∀ q, R `prefix_of` q → fs w !! q = None) →
  generation_phase cwd plistlib_dump table w = (inr (), w') →
  ∀ q, R `prefix_of` q → is_Some (fs w' !! q) →
       ∃ path_key, is_Some (table !! path_key) ∧
                   (q = target_of cwd path_key ∨ q `prefix_of` parent_of cwd path_key).
Proof.
  intros _ Hwf. unfold generation_phase.
  rewrite bind_run. unfold print at 1. cbv beta iota.
  rewrite bind_run. unfold os_path_exists. cbn [fs]. cbv beta iota.
  change (resolve cwd ROOT_PATH) with R. rewrite bind_run.
  lazymatch goal with
  | |- (match ?c with _ => _ end) = _ → _ =>
      destruct c as [[e|[]] w1] eqn:Hrm; [done|]
  end.
  assert (∀ q, R `prefix_of` q → fs w1 !! q = None) as Hclean.
  { destruct (exists_ (fs w) R) eqn:HR.
    - unfold shutil_rmtree, lift_fs in Hrm.
      change (resolve cwd ROOT_PATH) with R in Hrm. cbn [fs] in Hrm.
      unfold rmtree in Hrm. destruct (stat (fs w) R) as [[|d]|]; [|done..].
      injection Hrm as <-. intros q Hq. cbn [fs set_fs].
      by rewrite lookup_remove_below, decide_True.
    - injection Hrm as <-. intros q Hq. cbn [fs]. by apply Hwf. }
  intros Hgen q HRq Hq.
  destruct (generate_all_created _ _ _ _ Hgen q Hq) as [Hold|?]; [|done].
  rewrite Hclean in Hold by done. by destruct Hold.
Qed.


Lemma fold_resolve_names l base :
  Forall (λ c, valid_name c = true) l → fold_left resolve_step l base = base ++ l.
Proof.
  intros Hl. revert base. induction Hl as [|c l Hc _ IH]; intros base; simpl.
  - by rewrite app_nil_r.
  - rewrite resolve_step_name by done. by rewrite IH, <- app_assoc.
Qed.

Lemma relative_key_first path_key :
  relative_key path_key → startswith_sep path_key = false.
Proof.
  unfold relative_key. destruct path_key as [|x k]; [done|]. simpl.
  destruct (Ascii.eqb x sep); [|done]. intros [H _]%Forall_cons. done.
Qed.

(** Where the file of a relative key goes. *)
Lemma relative_key_target path_key :
  relative_key path_key → target_of cwd path_key = R ++ components path_key.
Proof.
  intros Hk. unfold target_of, join.
  rewrite (relative_key_first _ Hk).
  change (String.eqb ROOT_PATH "" || endswith_sep ROOT_PATH) with false. cbv iota.
  unfold resolve. rewrite startswith_sep_append by done.
  rewrite components_append_sep, fold_left_app.
  change (fold_left resolve_step (components ROOT_PATH)
            (if startswith_sep ROOT_PATH then [] else cwd)) with R.
  by apply fold_resolve_names.
Qed.

Lemma components_last p :
  components p = removelast (components p) ++ [basename p].
Proof.
  destruct (decide (0 ≤ rfind sep p)) as [Hp|Hp].
  - apply PosixPathSplit.rfind_split in Hp as (h & b & -> & Hb & _).
    rewrite basename_append_sep, components_append_sep, (components_absent b) by done.
    by rewrite removelast_last.
  - rewrite PosixPathSplit.basename_absent, components_absent by lia. done.
Qed.

Lemma relative_key_basename path_key :
  relative_key path_key → valid_name (basename (join ROOT_PATH path_key)) = true.
Proof.
  intros Hk. unfold join. rewrite (relative_key_first _ Hk).
  change (String.eqb ROOT_PATH "" || endswith_sep ROOT_PATH) with false. cbv iota.
  assert (Forall (λ c, valid_name c = true)
            (components (ROOT_PATH +:+ String sep path_key))) as Hall.
  { rewrite components_append_sep. apply Forall_app. split; [|done].
    by repeat constructor. }
  rewrite components_last in Hall. by apply Forall_app in Hall as [_ [? _]%Forall_cons].
Qed.

Lemma relative_key_parent path_key :
  relative_key path_key →
  target_of cwd path_key
  = parent_of cwd path_key ++ [basename (join ROOT_PATH path_key)] ∧
  R `prefix_of` parent_of cwd path_key.
Proof.
  intros Hk.
  pose proof (resolve_dirname_basename cwd _ (relative_key_basename _ Hk)) as Hsplit.
  fold (target_of cwd path_key) (parent_of cwd path_key) in Hsplit.
  split; [done|]. rewrite relative_key_target in Hsplit by done.
  pose proof (components_nonempty path_key) as Hne.
  destruct (components path_key) as [|c l _] using rev_ind; [done|].
  rewrite app_assoc in Hsplit. apply app_inj_tail in Hsplit as [<- _].
  by apply prefix_app_r.
Qed.


Lemma target_below_parent path_key :
  relative_key path_key →
  parent_of cwd path_key `prefix_of` target_of cwd path_key ∧
  ¬ target_of cwd path_key `prefix_of` parent_of cwd path_key ∧
  R `prefix_of` target_of cwd path_key.
Proof.
  intros [Hsplit HRp]%relative_key_parent. rewrite Hsplit. split_and!.
  - by apply prefix_app_r.
  - apply prefix_snoc_not.
  - by apply prefix_app_r.
Qed.

(** One round of the generation loop, for an entry that the earlier
    rounds do not stand in the way of. *)
Lemma generate_all_round (e : string * mapping) (earlier : list (string * mapping)) w :
  (∀ v, (plistlib_dump v).2 = None) →
  (∀ e', e' ∈ earlier ++ [e] → relative_key e'.1) →
  (∀ e', e' ∈ earlier →
         ¬ target_of cwd e'.1 `prefix_of` target_of cwd e.1 ∧
         ¬ target_of cwd e.1 `prefix_of` target_of cwd e'.1) →
  generated R cwd plistlib_dump earlier (fs w) →
  ∃ w1,
    generate_articulation_set cwd plistlib_dump e.2 (name_of e.1) (join ROOT_PATH e.1) w
    = (inr (join ROOT_PATH e.1), w1) ∧
    generated R cwd plistlib_dump (earlier ++ [e]) (fs w1).
Proof.
  intros Htotal Hrel Hapart (I1 & I2 & I3).
  assert (relative_key e.1) as Hk by (apply Hrel, elem_of_app; right; left).
  destruct (relative_key_parent _ Hk) as [Hsplit HRp].
  destruct (target_below_parent _ Hk) as (Hpt & Htp & HRt).
  destruct (generate_articulation_set_run cwd plistlib_dump e.2 (name_of e.1)
              (join ROOT_PATH e.1) w)
    as (doc & data & err & w1 & Hdoc & Hdump & Hrun & Hfile & Hothers & _ & _).
  - by apply relative_key_basename.
  - fold (parent_of cwd e.1). intros q d Hq Hf.
    destruct (prefix_weak_total q R (parent_of cwd e.1) Hq HRp) as [HqR|HRq].
    { by apply (I1 q d). }
    destruct (I2 q _ HRq Hf) as [[? _]|(_ & e' & He' & ->)]; [done|].
    destruct (Hapart e' He') as [Hno _]. apply Hno. by transitivity (parent_of cwd e.1).
  - fold (parent_of cwd e.1). intros Hd. exfalso.
    unfold parent_of in HRp. rewrite Hd in HRp.
    change (resolve cwd "") with (resolve_step cwd "") in HRp.
    rewrite resolve_step_empty in HRp.
    by apply (prefix_snoc_not cwd "output").
  - fold (target_of cwd e.1). intros Hf.
    destruct (I2 _ _ HRt Hf) as [(_ & e' & He' & Hp)|[? _]]; [|done].
    destruct (Hapart e' He') as [_ Hno]. apply Hno.
    transitivity (parent_of cwd e'.1); [done|].
    apply target_below_parent, Hrel, elem_of_app. by left.
  - fold (target_of cwd e.1) (parent_of cwd e.1) in *.
    pose proof (Htotal doc) as Herr. rewrite Hdump in Herr. simpl in Herr. subst err.
    exists w1. split; [done|]. split_and!.
    + intros q d Hq. destruct (Hothers q) as [->|(_ & -> & _)]; [|by apply I1|done].
      intros ->. apply Htp. by transitivity (source_root cwd).
    + intros q n HRq Hn. destruct (decide (q = target_of cwd e.1)) as [->|Hne].
      * right. rewrite Hfile in Hn. injection Hn as <-. split; [done|].
        exists e. split; [|done]. apply elem_of_app. right. left.
      * destruct (Hothers q Hne) as [Heq|(_ & Hdir & Hp)].
        -- rewrite Heq in Hn.
           destruct (I2 q n HRq Hn) as [(? & e' & ? & ?)|(? & e' & ? & ?)].
           ++ left. split; [done|]. exists e'. split; [|done]. apply elem_of_app. by left.
           ++ right. split; [done|]. exists e'. split; [|done]. apply elem_of_app. by left.
        -- left. rewrite Hdir in Hn. injection Hn as <-. split; [done|].
           exists e. split; [|done]. apply elem_of_app. right. left.
    + intros e' [He'|He']%elem_of_app; [|apply list_elem_of_singleton in He' as ->].
      * destruct (I3 e' He') as (doc' & Hdoc' & Hfile').
        exists doc'. split; [done|].
        destruct (Hothers (target_of cwd e'.1)) as [->|(Hnone & _)]; [|done|congruence].
        intros Heq. destruct (Hapart e' He') as [Hno _]. apply Hno. by rewrite Heq.
      * exists doc. split; [done|]. by rewrite Hfile, Hdump.
Qed.


(** The generation loop over entries none of which stands in the way of
    another. *)
Lemma generate_all_loop (l earlier : list (string * mapping)) w :
  (∀ v, (plistlib_dump v).2 = None) →
  (∀ e, e ∈ earlier ++ l → relative_key e.1) →
  (∀ e1 e2, e1 ∈ earlier ++ l → e2 ∈ earlier ++ l → e1.1 ≠ e2.1 →
            ¬ target_of cwd e1.1 `prefix_of` target_of cwd e2.1) →
  NoDup (earlier ++ l).*1 →
  generated R cwd plistlib_dump earlier (fs w) →
  ∃ w',
    for_each l
      (λ entry, run generate_articulation_set cwd plistlib_dump entry.2 (name_of entry.1)
                      (join ROOT_PATH entry.1);
                ret ()) w = (inr (), w') ∧
    generated R cwd plistlib_dump (earlier ++ l) (fs w').
Proof.
  intros Htotal. revert earlier w.
  induction l as [|e l IH]; intros earlier w Hrel Hapart Hnd Hgen.
  { exists w. by rewrite app_nil_r. }
  assert (earlier ++ e :: l = (earlier ++ [e]) ++ l) as Hassoc
    by (by rewrite <- app_assoc).
  destruct (generate_all_round e earlier w Htotal) as (w1 & Hrun & Hgen1); [| |done|].
  - intros e' He'. apply Hrel. rewrite Hassoc. apply elem_of_app. by left.
  - intros e' He'.
    assert (e'.1 ≠ e.1) as Hne.
    { rewrite fmap_app in Hnd. apply NoDup_app in Hnd as (_ & Hnd & _).
      intros Heq. apply (Hnd e'.1).
      - by apply list_elem_of_fmap_2.
      - rewrite Heq. cbn. left. }
    assert (e' ∈ earlier ++ e :: l) by (apply elem_of_app; by left).
    assert (e ∈ earlier ++ e :: l) by (apply elem_of_app; right; left).
    split; apply Hapart; done.
  - rewrite Hassoc in Hrel, Hapart, Hnd.
    destruct (IH (earlier ++ [e]) w1 Hrel Hapart Hnd Hgen1) as (w' & Hloop & Hgen').
    exists w'. rewrite Hassoc. split; [|done].
    cbn [for_each]. rewrite bind_run, bind_run, Hrun. exact Hloop.
Qed.

(** From a state in which nothing stands in its way the generation
    phase returns, with the output root holding the files of the table
    and the directories on the way to them, and nothing else. *)
Lemma generation_phase_generated (table : gmap string mapping) (w : World) :
  (∀ v, (plistlib_dump v).2 = None) →
  (∀ path_key, is_Some (table !! path_key) → relative_key path_key) →
  (∀ k1 k2, is_Some (table !! k1) → is_Some (table !! k2) → k1 ≠ k2 →
            ¬ components k1 `prefix_of` components k2) →
  (∀ q d, q `prefix_of` R → fs w !! q ≠ Some (File d)) →
  (exists_ (fs w) R = false → ∀ q, R `prefix_of` q → fs w !! q = None) →
  ∃ w',
    generation_phase cwd plistlib_dump table w = (inr (), w') ∧
    generated R cwd plistlib_dump (sorted_items table) (fs w').
Proof.
  intros Htotal Hrel Hapart Hfree Hwf.
  unfold generation_phase.
  rewrite bind_run. unfold print at 1. cbv beta iota.
  rewrite bind_run. unfold os_path_exists. cbn [fs]. cbv beta iota.
  change (resolve cwd ROOT_PATH) with R. rewrite bind_run.
  set (w0 := mkWorld (fs w) _ (stderr w)).
  assert (∃ w1,
            (if exists_ (fs w) R then shutil_rmtree cwd ROOT_PATH else ret ()) w0
            = (inr (), w1) ∧
            generated R cwd plistlib_dump [] (fs w1)) as (w1 & -> & Hgen).
  { destruct (exists_ (fs w) R) eqn:HR.
    - unfold shutil_rmtree, lift_fs. change (resolve cwd ROOT_PATH) with R. cbn [fs w0].
      unfold rmtree. rewrite stat_nonempty by apply source_root_nonempty.
      destruct (fs w !! R) as [[|d]|] eqn:Hroot.
      + eexists. split; [done|]. cbn [fs set_fs]. split_and!.
        * intros q d Hq. rewrite lookup_remove_below. case_decide; [done|by apply Hfree].
        * intros q n Hq. by rewrite lookup_remove_below, decide_True.
        * intros e He. by apply elem_of_nil in He.
      + by destruct (Hfree R d).
      + apply exists_true in HR as [? HR].
        rewrite stat_nonempty, Hroot in HR by apply source_root_nonempty. done.
    - exists w0. split; [done|]. cbn [fs w0]. split_and!.
      + done.
      + intros q n Hq. by rewrite Hwf.
      + intros e He. by apply elem_of_nil in He. }
  cbv beta iota.
  destruct (generate_all_loop (sorted_items table) [] w1 Htotal) as (w' & Hloop & Hgen');
    cbn [app]; try done.
  - intros e He%sorted_items_elem. apply Hrel. eauto.
  - intros e1 e2 He1%sorted_items_elem He2%sorted_items_elem Hne.
    rewrite !relative_key_target by (apply Hrel; eauto).
    intros Hp%prefix_app_inv. revert Hp. apply Hapart; eauto.
  - unfold sorted_items. rewrite merge_sort_Permutation.
    apply NoDup_fst_map_to_list.
  - exists w'. split; [exact Hloop|done].
Qed.

(** X11: let every key of the table be a relative path of proper names,
    let no key's path be an initial part of another key's path, and let
    [plistlib.dump] never raise.  From a state in which no regular file
    stands on the way to the output root (or in its place) and nothing
    lies below a missing output root, the generation phase of [main]
    returns, and afterwards, for every key of the table, the file named
    by the key under the output root holds the bytes dumped for the
    document of that key's mapping. *)
Theorem generation_writes_every_file (table : gmap string mapping) (w : World) :
  (∀ v, (plistlib_dump v).2 = None) →
  (∀ path_key, is_Some (table !! path_key) → relative_key path_key) →
  (∀ k1 k2, is_Some (table !! k1) → is_Some (table !! k2) → k1 ≠ k2 →
            ¬ components k1 `prefix_of` components k2) →
  (∀ q d, q `prefix_of` R → fs w !! q ≠ Some (File d)) →
  (exists_ (fs w) R = false → ∀ q, R `prefix_of` q → fs w !! q = None) →
  ∃ w',
    generation_phase cwd plistlib_dump table w = (inr (), w') ∧
    ∀ path_key m,
      table !! path_key = Some m →
      ∃ doc,
        build_document m (name_of path_key) (join ROOT_PATH path_key) = inr doc ∧
        fs w' !! (R ++ components path_key) = Some (File (plistlib_dump doc).1).
Proof.
  intros Htotal Hrel Hapart Hfree Hwf.
  destruct (generation_phase_generated table w Htotal Hrel Hapart Hfree Hwf)
    as (w' & Hrun & _ & _ & I3).
  exists w'. split; [exact Hrun|].
  intros path_key m Hm.
  destruct (I3 (path_key, m)) as (doc & Hdoc & Hfile).
  { by apply sorted_items_elem. }
  exists doc. split; [done|].
  rewrite <- relative_key_target by (apply Hrel; eauto). done.
Qed.

End Generation.

(** ** Concrete runs of the generation phase *)

Lemma generation_leaves_nothing_stale_witness :
  ∃ path_key,
    is_Some (scenario_table !! path_key) ∧
    (["work"; "output"; "Test.plist"] = target_of ["work"] path_key ∨
     ["work"; "output"; "Test.plist"] `prefix_of` parent_of ["work"] path_key).
Proof.
  apply (generation_leaves_nothing_stale ["work"] name_dump scenario_table
           leftover_world regenerated_world).
  - intros path_key [m Hm]. unfold scenario_table in Hm.
    apply lookup_singleton_Some in Hm as [<- _].
    vm_compute. by repeat constructor.
  - intros Habsent. vm_compute in Habsent. discriminate Habsent.
  - unfold regenerated_world.
    apply (returned_state
             (generation_phase ["work"] name_dump scenario_table leftover_world) ()).
    vm_compute. reflexivity.
  - by exists ["Test.plist"].
  - vm_compute. eauto.
Defined.

(** In that run the file of the earlier run is gone and the file of the
    table is there. *)
Example regenerated_world_clean :
  fs leftover_world !! ["work"; "output"; "Old.plist"] = Some (File "old") ∧
  fs regenerated_world !! ["work"; "output"; "Old.plist"] = None ∧
  fs regenerated_world !! ["work"; "output"; "Test.plist"] = Some (File "Test.plist").
Proof. vm_compute. by split_and!. Qed.

Ltac table_keys H :=
  let v := fresh "v" in
  destruct H as [v H]; apply elem_of_map_to_list in H;
  apply (list_elem_of_fmap_2 fst) in H; vm_compute in H;
  repeat (apply elem_of_cons in H as [->|H]); [..|by apply elem_of_nil in H].

Lemma generation_writes_every_file_witness :
  ∃ w',
    generation_phase ["work"] name_dump PATH_TO_ARTICULATION_MAPPING (mkWorld ∅ [] [])
    = (inr (), w') ∧
    ∀ path_key m,
      PATH_TO_ARTICULATION_MAPPING !! path_key = Some m →
      ∃ doc,
        build_document m (name_of path_key) (PosixPath.join ROOT_PATH path_key) = inr doc ∧
        fs w' !! (source_root ["work"] ++ PosixPath.components path_key)
        = Some (File (name_dump doc).1).
Proof.
  apply (generation_writes_every_file ["work"] name_dump PATH_TO_ARTICULATION_MAPPING
           (mkWorld ∅ [] [])).
  - done.
  - intros path_key Hk. table_keys Hk; vm_compute; by repeat constructor.
  - intros k1 k2 Hk1 Hk2 Hne [x Hx].
    table_keys Hk1; table_keys Hk2; first [done | vm_compute in Hx; discriminate Hx].
  - intros q d _. cbn [fs]. by rewrite lookup_empty.
  - intros _ q _. cbn [fs]. by rewrite lookup_empty.
Defined.

(** * The whole script *)

Global Instance confined_preorder root : PreOrder (confined root).
Proof.
  split.
  - intros f q _. by left.
  - intros f1 f2 f3 H12 H23 q Hq.
    destruct (H12 q Hq) as [E12|(N1 & D2 & Hp)], (H23 q Hq) as [E23|(N2 & D3 & Hp')].
    + left. congruence.
    + right. split_and!; [congruence|done|done].
    + right. split_and!; [done|congruence|done].
    + congruence.
Qed.

(** The order of [sorted] on the keys. *)
Lemma compare_not_gt_trans (s1 s2 s3 : string) :
  String.compare s1 s2 ≠ Gt → String.compare s2 s3 ≠ Gt → String.compare s1 s3 ≠ Gt.
Proof.
  revert s2 s3. induction s1 as [|c1 s1 IH]; intros [|c2 s2] [|c3 s3]; simpl; try done.
  unfold Ascii.compare.
  destruct (N.compare_spec (N_of_ascii c1) (N_of_ascii c2)) as [E12|L12|G12];
    destruct (N.compare_spec (N_of_ascii c2) (N_of_ascii c3)) as [E23|L23|G23];
    destruct (N.compare_spec (N_of_ascii c1) (N_of_ascii c3)) as [E13|L13|G13];
    try done; try lia.
  apply IH.
Qed.

Global Instance item_le_total : Total item_le.
Proof. intros a b. apply String.leb_total. Qed.

Global Instance item_le_transitive : Transitive item_le.
Proof.
  intros a b c. unfold item_le, String.leb. intros Hab Hbc.
  pose proof (compare_not_gt_trans a.1 b.1 c.1) as H.
  destruct (String.compare a.1 b.1), (String.compare b.1 c.1), (String.compare a.1 c.1);
    try done; by destruct H.
Qed.

(** The file system stays a tree. *)
Module FSTree.
Import FS FSFacts.

Global Instance keeps_tree_preorder : PreOrder keeps_tree.
Proof.
  split.
  - intros f Ht. exact Ht.
  - intros f1 f2 f3 H12 H23 Ht. by apply H23, H12.
Qed.

(** After [makedirs] every directory on the way exists. *)
Lemma makedirs_from_way exist_ok above rest f f' :
  makedirs_from exist_ok above rest f = inr f' →
  ∀ q, q ≠ [] → q `prefix_of` rest → f' !! (above ++ q) = Some Dir.
Proof.
  revert above f. induction rest as [|c rest IH]; intros above f Hm q Hq Hp.
  { by apply prefix_nil_inv in Hp. }
  destruct q as [|c' q]; [done|].
  pose proof (prefix_cons_inv_1 _ _ _ _ Hp) as ->.
  apply prefix_cons_inv_2 in Hp.
  assert (above ++ c :: q = (above ++ [c]) ++ q) as -> by by rewrite <- app_assoc.
  simpl in Hm. rewrite stat_snoc in Hm.
  destruct (decide (q = [])) as [->|Hne].
  - rewrite app_nil_r.
    destruct (f !! (above ++ [c])) as [[|d]|] eqn:Hc.
    + destruct rest as [|c2 rest].
      { destruct exist_ok; [|done]. by injection Hm as <-. }
      apply makedirs_from_spec in Hm as [Hfr _].
      destruct (Hfr (above ++ [c])) as [->|(? & _)]; congruence.
    + by destruct rest.
    + apply makedirs_from_spec in Hm as [Hfr _].
      destruct (Hfr (above ++ [c])) as [Heq|(Hn & _)].
      * by rewrite Heq, lookup_insert_eq.
      * by rewrite lookup_insert_eq in Hn.
  - destruct (f !! (above ++ [c])) as [[|d]|] eqn:Hc.
    + destruct rest as [|c2 rest]; [by apply prefix_nil_inv in Hp|].
      by apply (IH _ _ Hm).
    + by destruct rest.
    + by apply (IH _ _ Hm).
Qed.

Lemma makedirs_way exist_ok p f f' :
  makedirs exist_ok p f = inr f' →
  ∀ q, q ≠ [] → q `prefix_of` p → f' !! q = Some Dir.
Proof.
  destruct p as [|c p]; unfold makedirs.
  - intros _ q Hq Hp%prefix_nil_inv. done.
  - intros Hm q Hq Hp. by apply (makedirs_from_way _ [] _ _ _ Hm q).
Qed.

Lemma makedirs_keeps_tree exist_ok p f f' :
  makedirs exist_ok p f = inr f' → keeps_tree f f'.
Proof.
  intros Hm Ht q c Hqc.
  destruct (decide (q = [])) as [->|Hq]; [done|]. rewrite stat_nonempty by done.
  pose proof (makedirs_spec _ _ _ _ Hm) as [Hfr _].
  destruct (Hfr (q ++ [c])) as [Heq|(_ & _ & Hp)].
  - rewrite Heq in Hqc. apply Ht in Hqc. rewrite stat_nonempty in Hqc by done.
    destruct (Hfr q) as [->|(Hn & _)]; [done|congruence].
  - apply (makedirs_way _ _ _ _ Hm); [done|].
    transitivity (q ++ [c]); [by exists [c]|done].
Qed.

Lemma write_file_inv p data f f' :
  write_file p data f = inr f' →
  p ≠ [] ∧ stat f (removelast p) = Some Dir ∧ f !! p ≠ Some Dir ∧
  f' = <[p := File data]> f.
Proof.
  unfold write_file. destruct p as [|c l]; [done|].
  destruct (stat f (removelast (c :: l))) as [[|?]|] eqn:Hpar; try done.
  destruct (stat f (c :: l)) as [[|?]|] eqn:Hs; try done;
    intros [= <-]; split_and!; try done; cbn [stat] in Hs; congruence.
Qed.

Lemma write_file_keeps_tree p data f f' :
  write_file p data f = inr f' → keeps_tree f f'.
Proof.
  intros (Hne & Hpar & Hnd & ->)%write_file_inv Ht q c Hqc.
  destruct (decide (q = [])) as [->|Hq]; [done|]. rewrite stat_nonempty by done.
  assert (f !! q = Some Dir) as Hold.
  { destruct (decide (p = q ++ [c])) as [->|Hne'].
    - rewrite removelast_last in Hpar. by rewrite stat_nonempty in Hpar.
    - rewrite lookup_insert_ne in Hqc by done. apply Ht in Hqc.
      by rewrite stat_nonempty in Hqc. }
  rewrite lookup_insert_ne; [done|]. intros ->. congruence.
Qed.

Lemma rmtree_keeps_tree p f f' : rmtree p f = inr f' → keeps_tree f f'.
Proof.
  unfold rmtree. destruct (stat f p) as [[|?]|]; try done.
  intros [= <-] Ht q c Hqc.
  rewrite lookup_remove_below in Hqc. case_decide as Hp; [by destruct Hqc|].
  apply Ht in Hqc.
  destruct (decide (q = [])) as [->|Hq]; [done|]. rewrite stat_nonempty in * by done.
  rewrite lookup_remove_below, decide_False; [done|].
  intros Hpq. apply Hp. by apply prefix_app_r.
Qed.

(** In a tree, whatever lies above a node is a directory. *)
Lemma tree_way f q s :
  tree f → s ≠ [] → is_Some (f !! (q ++ s)) → stat f q = Some Dir.
Proof.
  intros Ht. induction s as [|c s IH] using rev_ind; [done|].
  intros _ Hs. rewrite app_assoc in Hs. apply Ht in Hs.
  destruct (decide (s = [])) as [->|Hne]; [by rewrite app_nil_r in Hs|].
  apply IH; [done|]. rewrite stat_nonempty in Hs; [by rewrite Hs|].
  by destruct q, s.
Qed.

Lemma tree_below_missing f p :
  tree f → p ≠ [] → exists_ f p = false → ∀ q, p `prefix_of` q → f !! q = None.
Proof.
  intros Ht Hp Hex q [s ->]. destruct (f !! (p ++ s)) as [n|] eqn:Hq; [|done].
  exfalso. apply bool_decide_eq_false in Hex. apply Hex.
  destruct (decide (s = [])) as [->|Hs].
  - rewrite app_nil_r in Hq. by rewrite stat_nonempty, Hq.
  - by rewrite (tree_way f p s Ht Hs (mk_is_Some _ _ Hq)).
Qed.

End FSTree.

Section WholeRun.

Variable cwd : path.
Variable home : string.
Variable plistlib_dump : plist → bytes * option exn.

Import PosixPath PosixPathFacts FS FSFacts.

Local Abbreviation R := (source_root cwd).
Local Abbreviation D := (destination_root cwd home).

(** A round of the generation loop for a relative key keeps to the
    output root. *)
Lemma generate_round_confined (m : mapping) (name path_key : string) :
  relative_key path_key →
  preserves (confined R)
    (generate_articulation_set cwd plistlib_dump m name (join ROOT_PATH path_key)).
Proof.
  intros Hk w r w' Hrun q Hq.
  destruct (target_below_parent cwd _ Hk) as (_ & _ & HRt).
  destruct (relative_key_parent cwd _ Hk) as [_ HRp].
  destruct (generate_articulation_set_frame _ _ _ _ _ _ _ _ Hrun q) as [?|(? & ? & Hp)].
  - intros ->. by apply Hq.
  - by left.
  - right. split_and!; [done..|].
    fold (parent_of cwd path_key) in Hp.
    by destruct (prefix_weak_total q (source_root cwd) _ Hp HRp).
Qed.

Lemma rmtree_confined : preserves (confined R) (shutil_rmtree cwd ROOT_PATH).
Proof.
  apply preserves_lift_fs. intros f f'. unfold rmtree.
  destruct (stat f _) as [[|d]|]; [|done..]. intros [= <-] q Hq.
  left. rewrite lookup_remove_below. by rewrite decide_False.
Qed.

(** The generation phase preserves what the removal of the output root
    and every round of the loop preserve. *)
Lemma generation_phase_preserves {Q : relation (gmap path node)} `{!PreOrder Q}
    (table : gmap string mapping) :
  preserves Q (shutil_rmtree cwd ROOT_PATH) →
  (∀ path_key m, table !! path_key = Some m →
     preserves Q (generate_articulation_set cwd plistlib_dump m (name_of path_key)
                    (join ROOT_PATH path_key))) →
  preserves Q (generation_phase cwd plistlib_dump table).
Proof.
  intros Hrm Hround. unfold generation_phase.
  apply preserves_bind; [apply preserves_print|intros _].
  apply preserves_bind; [by apply preserves_read|intros present].
  apply preserves_bind.
  { destruct present; [apply Hrm|apply preserves_ret]. }
  intros _. apply preserves_for_each. intros entry Hin%sorted_items_elem. cbv zeta.
  apply preserves_bind; [|intros _; apply preserves_ret].
  by apply Hround.
Qed.

Lemma generation_phase_confined (table : gmap string mapping) :
  (∀ path_key, is_Some (table !! path_key) → relative_key path_key) →
  preserves (confined R) (generation_phase cwd plistlib_dump table).
Proof.
  intros Hrel. apply generation_phase_preserves; [apply rmtree_confined|].
  intros path_key m Hm. apply generate_round_confined, Hrel. eauto.
Qed.

(** X12: without [--copy-overwrite], and with a table whose keys are
    relative paths of proper names, [main] keeps to its output root:
    however the run ends, every path that is not at or below the output
    root holds what it held before, except that directories missing on
    the way to the output root may now exist. *)
Theorem generation_stays_in_output_root (table : gmap string mapping)
    (w : World) (r : exn + ()) (w' : World) :
  (∀ path_key, is_Some (table !! path_key) → relative_key path_key) →
  main_with cwd home plistlib_dump table (mkArgs false) w = (r, w') →
  ∀ q, ¬ R `prefix_of` q →
       fs w' !! q = fs w !! q ∨
       (fs w !! q = None ∧ fs w' !! q = Some Dir ∧ q `prefix_of` R).
Proof.
  intros Hrel Hrun.
  assert (preserves (confined R)
            (main_with cwd home plistlib_dump table (mkArgs false))) as Hmain.
  { unfold main_with. cbn [copy_overwrite].
    apply preserves_bind; [by apply generation_phase_confined|intros _].
    apply preserves_ret. }
  exact (Hmain _ _ _ Hrun).
Qed.

(** ** What the generation phase prints *)

Lemma generate_all_lines (l : list (string * mapping)) w w' :
  for_each l
    (λ entry, run generate_articulation_set cwd plistlib_dump entry.2 (name_of entry.1)
                    (join ROOT_PATH entry.1);
              ret ()) w = (inr (), w') →
  stdout w' = stdout w ++ (l ≫= λ entry, progress_lines (join ROOT_PATH entry.1)
                                                        (size entry.2)) ∧
  stderr w' = stderr w.
Proof.
  revert w. induction l as [|e l IH]; intros w; cbn [for_each].
  { intros [= <-]. by rewrite app_nil_r. }
  rewrite bind_run, bind_run.
  destruct (generate_articulation_set _ _ _ _ _ w) as [[e0|res] w1] eqn:Hgen; [done|].
  unfold ret at 1. cbv beta iota.
  intros [Hout Herr]%IH.
  apply generate_articulation_set_result in Hgen as (doc & _ & _ & _ & Hout1 & Herr1).
  rewrite Hout, Hout1, Herr, Herr1. split; [|done].
  rewrite bind_cons. by rewrite <- app_assoc.
Qed.

Lemma generation_phase_lines (table : gmap string mapping) w w' :
  generation_phase cwd plistlib_dump table w = (inr (), w') →
  stdout w' = stdout w ++ progress_report table ∧ stderr w' = stderr w.
Proof.
  unfold generation_phase.
  rewrite bind_run. unfold print at 1. cbv beta iota.
  rewrite bind_run. unfold os_path_exists. cbn [fs]. cbv beta iota.
  rewrite bind_run.
  lazymatch goal with
  | |- (match ?c with _ => _ end) = _ → _ =>
      destruct c as [[e|[]] w1] eqn:Hrm; [done|]
  end.
  intros [Hout Herr]%generate_all_lines.
  assert (stdout w1 = stdout w ++ [heading table] ∧ stderr w1 = stderr w) as [Hout1 Herr1].
  { destruct (exists_ _ _).
    - by apply silent_lift_fs in Hrm.
    - by injection Hrm as <-. }
  rewrite Hout, Hout1, Herr, Herr1. split; [|done].
  unfold progress_report. by rewrite <- app_assoc.
Qed.

(** X13: a generation phase of [main] that returns has printed, after
    the heading with the number of table entries, the three lines of
    [generate_articulation_set] for each entry of the table, each entry
    once and the entries in ascending order of their keys, and nothing
    on the error stream. *)
Theorem generation_progress (table : gmap string mapping) (w w' : World) :
  generation_phase cwd plistlib_dump table w = (inr (), w') →
  stdout w' = stdout w ++ progress_report table ∧
  stderr w' = stderr w ∧
  sorted_items table ≡ₚ map_to_list table ∧
  ascending (sorted_items table).
Proof.
  intros [Hout Herr]%generation_phase_lines. split_and!; [done..| |].
  - apply merge_sort_Permutation.
  - apply StronglySorted_merge_sort; apply _.
Qed.

(** ** From the table to the installed files *)

Import FSTree.

Lemma generate_articulation_set_keeps_tree (m : mapping) (name output_path : string) :
  preserves keeps_tree (generate_articulation_set cwd plistlib_dump m name output_path).
Proof.
  unfold generate_articulation_set.
  destruct (articulations_loop _ _ _ _) as [e|articulations]; [apply preserves_raise|].
  unfold emit_document. cbv zeta.
  apply preserves_bind.
  { destruct (negb _); [|apply preserves_ret].
    apply preserves_lift_fs. intros f f'. apply makedirs_keeps_tree. }
  intros _. apply preserves_bind.
  { unfold dump_to_file. destruct (plistlib_dump _) as [data [e|]].
    - apply preserves_bind; [|intros _; apply preserves_raise].
      apply preserves_lift_fs. intros f f'. apply write_file_keeps_tree.
    - apply preserves_bind; [|intros _; apply preserves_ret].
      apply preserves_lift_fs. intros f f'. apply write_file_keeps_tree. }
  intros _. repeat (apply preserves_bind; [apply preserves_print|intros _]).
  apply preserves_ret.
Qed.

Lemma generation_phase_keeps_tree (table : gmap string mapping) :
  preserves keeps_tree (generation_phase cwd plistlib_dump table).
Proof.
  apply generation_phase_preserves.
  - apply preserves_lift_fs. intros f f'. apply rmtree_keeps_tree.
  - intros path_key m _. apply generate_articulation_set_keeps_tree.
Qed.




(** X15: when the name of the output root belongs to a regular file,
    [main] stops in its clearing step, with or without
    [--copy-overwrite]: [shutil.rmtree] raises [NotADirectoryError], the
    heading is all that was printed, and the file system is as it was;
    nothing is generated and nothing is installed. *)
Theorem main_stops_on_output_file (table : gmap string mapping) (args : Args)
    (w : World) (d : bytes) :
  fs w !! R = Some (File d) →
  main_with cwd home plistlib_dump table args w
  = (inl NotADirectoryError, mkWorld (fs w) (stdout w ++ [heading table]) (stderr w)).
Proof.
  intros Hroot.
  assert (stat (fs w) R = Some (File d)) as Hstat
    by (by rewrite stat_nonempty by apply source_root_nonempty).
  assert (generation_phase cwd plistlib_dump table w
          = (inl NotADirectoryError,
             mkWorld (fs w) (stdout w ++ [heading table]) (stderr w))) as Hgen.
  { unfold generation_phase.
    rewrite bind_run. unfold print at 1. cbv beta iota.
    rewrite bind_run. unfold os_path_exists. cbn [fs]. cbv beta iota.
    change (resolve cwd ROOT_PATH) with R. rewrite bind_run.
    unfold exists_. rewrite Hstat, bool_decide_eq_true_2 by done.
    unfold shutil_rmtree, lift_fs, rmtree. cbn [fs].
    change (resolve cwd ROOT_PATH) with R. by rewrite Hstat. }
  unfold main_with. by rewrite bind_run, Hgen.
Qed.

(** ** The output root is a function of the table *)

Lemma generated_region_agrees (done_entries : list (string * mapping)) f1 f2 :
  (∀ e, e ∈ done_entries → relative_key e.1) →
  generated R cwd plistlib_dump done_entries f1 →
  generated R cwd plistlib_dump done_entries f2 →
  tree f2 →
  ∀ q n, R `prefix_of` q → f1 !! q = Some n → f2 !! q = Some n.
Proof.
  intros Hrel (_ & I2 & I3) (_ & _ & I3') Ht q n Hq Hn.
  destruct (I2 q n Hq Hn) as [(-> & e & He & Hp)|(Hnd & e & He & ->)].
  - destruct (I3' e He) as (doc & _ & Hfile).
    destruct (relative_key_parent cwd _ (Hrel e He)) as [Hsplit _].
    destruct Hp as [s Hs]. rewrite Hsplit, Hs, <- app_assoc in Hfile.
    assert (q ≠ []) as Hne.
    { intros ->. apply prefix_nil_inv in Hq. by apply (source_root_nonempty cwd). }
    rewrite <- (stat_nonempty f2 q) by done.
    apply (tree_way f2 q (s ++ [basename (join ROOT_PATH e.1)])); [done| |].
    + by destruct s.
    + by rewrite Hfile.
  - destruct (I3 e He) as (doc & Hdoc & Hfile), (I3' e He) as (doc' & Hdoc' & Hfile').
    rewrite Hdoc in Hdoc'. injection Hdoc' as <-. congruence.
Qed.

(** X16: what the generation phase of [main] leaves at and below the
    output root depends on the table alone.  Let [plistlib.dump] never
    raise and let the keys of the table be relative paths of proper
    names none of which is an initial part of another.  From any two
    states whose file systems are trees with no regular file on the way
    to the output root, whatever the output root held in either, the
    generation phase returns, and the two final states hold the same
    node, or none, at every path at or below the output root. *)
Theorem generation_output_is_determined (table : gmap string mapping) (w_a w_b : World) :
  (∀ v, (plistlib_dump v).2 = None) →
  (∀ path_key, is_Some (table !! path_key) → relative_key path_key) →
  (∀ k1 k2, is_Some (table !! k1) → is_Some (table !! k2) → k1 ≠ k2 →
            ¬ components k1 `prefix_of` components k2) →
  tree (fs w_a) → tree (fs w_b) →
  (∀ q d, q `prefix_of` R → fs w_a !! q ≠ Some (File d) ∧ fs w_b !! q ≠ Some (File d)) →
  ∃ w_a' w_b',
    generation_phase cwd plistlib_dump table w_a = (inr (), w_a') ∧
    generation_phase cwd plistlib_dump table w_b = (inr (), w_b') ∧
    ∀ q, R `prefix_of` q → fs w_a' !! q = fs w_b' !! q.
Proof.
  intros Htotal Hrel Hapart Htree_a Htree_b Hfree.
  pose proof (source_root_nonempty cwd) as HRne.
  destruct (generation_phase_generated cwd plistlib_dump table w_a Htotal Hrel Hapart
              (λ q d Hq, proj1 (Hfree q d Hq))
              (tree_below_missing (fs w_a) _ Htree_a HRne)) as (w_a' & Hrun_a & Hg_a).
  destruct (generation_phase_generated cwd plistlib_dump table w_b Htotal Hrel Hapart
              (λ q d Hq, proj2 (Hfree q d Hq))
              (tree_below_missing (fs w_b) _ Htree_b HRne)) as (w_b' & Hrun_b & Hg_b).
  pose proof (generation_phase_keeps_tree table _ _ _ Hrun_a Htree_a) as Htree_a'.
  pose proof (generation_phase_keeps_tree table _ _ _ Hrun_b Htree_b) as Htree_b'.
  assert (∀ e, e ∈ sorted_items table → relative_key e.1) as Hrel'.
  { intros e He%sorted_items_elem. apply Hrel. eauto. }
  exists w_a', w_b'. split_and!; [done..|].
  intros q Hq. destruct (fs w_a' !! q) as [n|] eqn:Ha.
  - symmetry. by apply (generated_region_agrees _ _ _ Hrel' Hg_a Hg_b Htree_b').
  - destruct (fs w_b' !! q) as [n|] eqn:Hb; [|done].
    apply (generated_region_agrees _ _ _ Hrel' Hg_b Hg_a Htree_a') in Hb; [|done].
    congruence.
Qed.

End WholeRun.

(** ** Concrete runs of the script *)

Lemma generation_stays_in_output_root_witness :
  let q := destination_root ["work"] "/home/u" ++ ["Musio"; "Old.plist"] in
  fs generated_only !! q = fs stale_world !! q ∨
  (fs stale_world !! q = None ∧ fs generated_only !! q = Some Dir ∧
   q `prefix_of` source_root ["work"]).
Proof.
  apply (generation_stays_in_output_root ["work"] "/home/u" name_dump scenario_table
           stale_world (inr ()) generated_only).
  - intros path_key [m Hm]. unfold scenario_table in Hm.
    apply lookup_singleton_Some in Hm as [<- _].
    vm_compute. by repeat constructor.
  - unfold generated_only.
    apply (returned_state
             (main_with ["work"] "/home/u" name_dump scenario_table (mkArgs false)
                stale_world) ()).
    vm_compute. reflexivity.
  - intros [x Hx]. vm_compute in Hx. discriminate Hx.
Defined.

(** In that run the files of the earlier run are gone from the output
    root, and the file of the earlier install is still in place. *)
Example generated_only_keeps_install :
  fs generated_only !! ["work"; "output"; "Top.plist"] = None ∧
  fs generated_only !! ["work"; "output"; "Test.plist"] = Some (File "Test.plist") ∧
  fs generated_only !! (destination_root ["work"] "/home/u" ++ ["Musio"; "Old.plist"])
  = Some (File "old").
Proof. vm_compute. by split_and!. Qed.

Lemma generation_progress_witness :
  stdout regenerated_world = stdout leftover_world ++ progress_report scenario_table ∧
  stderr regenerated_world = stderr leftover_world ∧
  sorted_items scenario_table ≡ₚ map_to_list scenario_table ∧
  ascending (sorted_items scenario_table).
Proof.
  apply (generation_progress ["work"] name_dump scenario_table leftover_world
           regenerated_world).
  unfold regenerated_world.
  apply (returned_state
           (generation_phase ["work"] name_dump scenario_table leftover_world) ()).
  vm_compute. reflexivity.
Defined.

(** The lines of that run, and the order in which the real table is
    worked through. *)
Example regenerated_world_lines :
  stdout regenerated_world
  = [ "Generating 1 articulation set(s)..." +:+ newline;
      "Generated articulation set: output/Test.plist";
      "  Name: Test.plist";
      "  Articulations: 2" ].
Proof. vm_compute. reflexivity. Qed.

Example real_table_order :
  (sorted_items PATH_TO_ARTICULATION_MAPPING).*1
  = [ "Musio - CineStrings Solo/Bass.plist";
      "Musio - CineStrings Solo/Cello.plist";
      "Musio - CineStrings Solo/Viola.plist";
      "Musio - CineStrings Solo/Violin I.plist";
      "Musio - CineStrings Solo/Violin II.plist";
      "Spitfire - Chamber Strings Essentials.plist" ].
Proof. vm_compute. reflexivity. Qed.

(** A file system all of whose entries have a directory above them is a
    tree. *)
Lemma tree_by_entries (f : gmap path node) :
  Forall (λ kv, FS.stat f (removelast kv.1) = Some Dir) (map_to_list f) → tree f.
Proof.
  intros Hall q c [v Hv]. apply elem_of_map_to_list in Hv.
  rewrite Forall_forall in Hall. specialize (Hall _ Hv).
  cbn [fst] in Hall. by rewrite removelast_last in Hall.
Qed.


(** In that run the files of both keys reach the destination root, the
    file of the earlier install under the regenerated folder is gone,
    and the file that the table does not know stays. *)
Example reinstalled_world_files :
  let D := destination_root ["work"] "/home/u" in
  fs reinstalled_world !! (D ++ ["Test.plist"]) = Some (File "Test.plist") ∧
  fs reinstalled_world !! (D ++ ["Strings"; "Low.plist"]) = Some (File "Low.plist") ∧
  fs reinstalled_world !! (D ++ ["Strings"; "Gone.plist"]) = None ∧
  fs reinstalled_world !! (D ++ ["Mine.plist"]) = Some (File "mine").
Proof. vm_compute. by split_and!. Qed.

Lemma main_stops_on_output_file_witness :
  main_with ["work"] "/home/u" name_dump mixed_table (mkArgs true) output_file_world
  = (inl NotADirectoryError,
     mkWorld (fs output_file_world) (stdout output_file_world ++ [heading mixed_table])
       (stderr output_file_world)).
Proof.
  apply (main_stops_on_output_file ["work"] "/home/u" name_dump mixed_table (mkArgs true)
           output_file_world "notes").
  vm_compute. reflexivity.
Defined.

Lemma generation_output_is_determined_witness :
  ∃ w_a' w_b',
    generation_phase ["work"] name_dump mixed_table reinstall_world = (inr (), w_a') ∧
    generation_phase ["work"] name_dump mixed_table (mkWorld ∅ [] []) = (inr (), w_b') ∧
    ∀ q, source_root ["work"] `prefix_of` q → fs w_a' !! q = fs w_b' !! q.
Proof.
  assert (∀ path_key, is_Some (mixed_table !! path_key) →
            path_key = "Strings/Low.plist" ∨ path_key = "Test.plist") as Hkeys.
  { intros path_key Hk. table_keys Hk; eauto. }
  apply (generation_output_is_determined ["work"] name_dump mixed_table
           reinstall_world (mkWorld ∅ [] [])).
  - done.
  - intros path_key [-> | ->]%Hkeys; vm_compute; by repeat constructor.
  - intros k1 k2 [-> | ->]%Hkeys [-> | ->]%Hkeys Hne [x Hx];
      first [done | vm_compute in Hx; discriminate Hx].
  - apply tree_by_entries. vm_compute. by repeat constructor.
  - apply tree_by_entries. vm_compute. constructor.
  - intros q d Hway. split; [|cbn [fs]; by rewrite lookup_empty].
    intros Hq. apply elem_of_map_to_list in Hq. vm_compute in Hq.
    repeat (apply elem_of_cons in Hq as [Hq|Hq];
            [first [discriminate Hq
                   |injection Hq as -> _;
                    destruct Hway as [k Hk]; vm_compute in Hk; discriminate Hk]|]).
    by apply elem_of_nil in Hq.
Defined.
